(** * caesar_cipher: the ASCII Caesar cipher and its two key-recovery attacks

    A shallow embedding of [src/cipher/cipher.cpp] and
    [src/cracker/cracker.cpp], and the properties of the specification
    checked against it.

    Conventions of the embedding.
    - [int] values are [Z].  The key of the cipher is any [int], so the
      sum [int(curr) + shift] of cipher.cpp can pass [INT_MAX]: it is
      written [int_add], the sum wrapped around to 32 bits as the build
      computes it.  In the cracker a byte is added to a candidate shift below
      128 and a score counts words of the ciphertext, so those sums stay far
      from [INT_MAX] and are written [+].  [%] on [int] truncates towards
      zero and is [Z.rem].
    - [char] is the signed 8-bit type of the x86-64 System V ABI.
    - [double] is IEEE 754 binary64 with round-to-nearest-even, i.e.
      [spec_float] with the operations of [SpecFloat] at precision 53 and
      maximal exponent 1024.
    - [<cctype>] is read in the "C" locale, the locale of a program that
      never calls [setlocale].
    - undefined behaviour (an argument of a [<cctype>] function that is
      neither [EOF] nor an [unsigned char] value, an array index out of
      range) is the result [None]. *)

From Stdlib Require Import ZArith List Bool Lia Ascii String.
From Stdlib Require Import Floats.SpecFloat Floats.PrimFloat Floats.FloatOps.
From stdpp Require Import gmap strings list fin_maps pretty.

#[local] Open Scope Z_scope.
#[local] Set Warnings "-inexact-float".

(** ** Characters *)

(** [cipher::kAsciiAlphabetSize] (cipher.h). *)
Definition kAsciiAlphabetSize : Z := 128.

(** [static_cast<int>(c)] for a [char] that holds the byte [c]. *)
Definition char_to_int (c : ascii) : Z :=
  let n := Z.of_N (N_of_ascii c) in
  if n <? 128 then n else n - 256.

(** The conversion [int -> char], as the byte that the [char] stores. *)
Definition int_to_char (z : Z) : ascii := ascii_of_N (Z.to_N (z mod 256)).

(** A byte is ASCII when its code is in [0, 127]. *)
Definition is_ascii (c : ascii) : bool := Z.of_N (N_of_ascii c) <? 128.

(** The argument of a [<cctype>] function must be [EOF] (-1) or
    representable as [unsigned char]. *)
Definition ctype_arg_ok (c : Z) : bool := (-1 <=? c) && (c <=? 255).

Definition isdigit (c : Z) : bool := (48 <=? c) && (c <=? 57).
Definition isupper (c : Z) : bool := (65 <=? c) && (c <=? 90).
Definition islower (c : Z) : bool := (97 <=? c) && (c <=? 122).
Definition isalnum (c : Z) : bool := isdigit c || isupper c || islower c.
Definition isspace (c : Z) : bool := (c =? 32) || ((9 <=? c) && (c <=? 13)).
Definition tolower (c : Z) : Z := if isupper c then c + 32 else c.

(** ** Streams *)

(** What a [std::istream] still has to deliver: a byte and the rest, the
    end of the data, or a read error of the device. *)
Inductive source : Type :=
  | src_eof
  | src_fault
  | src_byte (c : ascii) (rest : source).

(** A [std::istream] as the callee receives it: [failed] is
    [failbit || badbit] at the time of the call (a file that could not be
    opened, [setstate(badbit)]), [data] is what reading would deliver. *)
Record istream : Type := { failed : bool; data : source }.

Fixpoint source_of (l : list ascii) : source :=
  match l with
  | [] => src_eof
  | c :: r => src_byte c (source_of r)
  end.

(** A good stream over the bytes of [l]. *)
Definition stream_of (l : list ascii) : istream :=
  {| failed := false; data := source_of l |}.

(** A stream over the bytes of [l] whose device fails after them. *)
Fixpoint faulty_source_of (l : list ascii) : source :=
  match l with
  | [] => src_fault
  | c :: r => src_byte c (faulty_source_of r)
  end.

(** A stream in a failed state, whatever it holds. *)
Definition bad_stream (s : source) : istream := {| failed := true; data := s |}.

(** What successive [is.get(curr)] calls deliver before the first one
    that fails: nothing on a failed stream, otherwise the bytes up to the
    end of the data or up to the read error. *)
Fixpoint source_bytes (s : source) : list ascii :=
  match s with
  | src_byte c rest => c :: source_bytes rest
  | _ => []
  end.

Definition bytes_read (ins : istream) : list ascii :=
  if failed ins then [] else source_bytes (data ins).

(** The source that the loop [while (is.get(curr))] walks: [get] fails at
    once on a failed stream. *)
Definition readable (ins : istream) : source :=
  if failed ins then src_eof else data ins.

Definition string_bytes (s : string) : list ascii := list_ascii_of_string s.

(** ** cipher.cpp *)

Inductive RetCode : Type := kSuccess | kBadInputStream | kBadOutputStream.

Record ostream : Type := { os_failed : bool; written : list ascii }.

(** The 32-bit [int]: its largest value, and a sum of two [int]s as the
    machine computes it, wrapped around into [[-2^31, 2^31)]. *)
Definition INT_MAX : Z := 2147483647.

Definition int_wrap (z : Z) : Z :=
  (z + 2147483648) mod 4294967296 - 2147483648.

Definition int_add (x y : Z) : Z := int_wrap (x + y).

(** The loop [while (is.get(curr)) { curr = (int(curr) + shift) % 128;
    os << curr; }]. *)
Fixpoint cipher_loop (shift : Z) (s : source) (out : list ascii) : list ascii :=
  match s with
  | src_byte curr rest =>
      let curr' :=
        int_to_char (Z.rem (int_add (char_to_int curr) shift) kAsciiAlphabetSize) in
      cipher_loop shift rest (out ++ [curr'])
  | _ => out
  end.

Definition AsciiCaesarCipher (ins : istream) (os : ostream) (shift : Z)
  : RetCode * ostream :=
  if failed ins then (kBadInputStream, os)
  else if os_failed os then (kBadOutputStream, os)
  else (kSuccess,
        {| os_failed := false;
           written := cipher_loop shift (data ins) (written os) |}).

(** The ciphertext written for plaintext [p] under key [k], on a fresh
    output stream. *)
Definition encrypt (k : Z) (p : list ascii) : list ascii :=
  written (snd (AsciiCaesarCipher (stream_of p)
                  {| os_failed := false; written := [] |} k)).

(** The byte that the cipher writes for the byte [c] under [shift]. *)
Definition shift_char (shift : Z) (c : ascii) : ascii :=
  int_to_char (Z.rem (int_add (char_to_int c) shift) kAsciiAlphabetSize).

(** ** cracker.cpp: the dictionary attack *)

Abbreviation WordSet := (gset string).
Abbreviation KeyScoreMap := (gmap Z Z).

(** The candidate shifts of [for (int shift = 0; shift < 128; ++shift)]. *)
Definition shifts : list Z := seqZ 0 kAsciiAlphabetSize.
Arguments shifts : simpl never.

(** [while (std::getline(dict_is, line)) dictionary.insert(line);] as one
    recursion on the stream.  [line] is what the running [getline] has
    extracted so far.  A newline ends the line, which is inserted.  At the
    end of the data a [getline] that extracted something still succeeds
    (only [eofbit] is set) and the next one fails; one that extracted
    nothing fails.  A read error sets [badbit]: the call fails and the part
    of the line it extracted is not inserted. *)
Fixpoint getline_loop (s : source) (line : string) (dictionary : WordSet)
  : WordSet :=
  match s with
  | src_byte c rest =>
      if Ascii.eqb c "010"%char
      then getline_loop rest EmptyString ({[ line ]} ∪ dictionary)
      else getline_loop rest (line +:+ String c EmptyString) dictionary
  | src_eof =>
      if String.eqb line EmptyString then dictionary else {[ line ]} ∪ dictionary
  | src_fault => dictionary
  end.

Definition LoadDictionary (dict_is : istream) : WordSet :=
  getline_loop (readable dict_is) EmptyString ∅.

(** [scores[shift]++]: [operator[]] value-initialises a missing entry. *)
Definition incr (shift : Z) (scores : KeyScoreMap) : KeyScoreMap :=
  <[ shift := default 0 (scores !! shift) + 1 ]> scores.

(** [dictionary.count(w)] as a truth value. *)
Definition count (dictionary : WordSet) (w : string) : bool :=
  bool_decide (w ∈ dictionary).

(** The locals [words] and [scores] of [AsciiDictionaryAttack]. *)
Record DictState : Type := { words : list string; scores : KeyScoreMap }.

Definition word_at (ws : list string) (shift : Z) : string :=
  default EmptyString (ws !! Z.to_nat shift).

Definition is_empty (w : string) : bool := String.eqb w EmptyString.

(** The body of the inner [for] of the scan (cracker.cpp:195-206). *)
Definition dict_body (dictionary : WordSet) (curr : ascii)
    (shift : Z) (st : DictState) : option DictState :=
  let tmp := Z.rem (char_to_int curr + shift) kAsciiAlphabetSize in
  if negb (ctype_arg_ok tmp) then None
  else if isalnum tmp then
    Some {| words := <[ Z.to_nat shift :=
                        word_at (words st) shift
                        +:+ String (int_to_char (tolower tmp)) EmptyString ]> (words st);
            scores := scores st |}
  else if negb (is_empty (word_at (words st) shift)) && isspace tmp then
    Some {| words := <[ Z.to_nat shift := EmptyString ]> (words st);
            scores := if count dictionary (word_at (words st) shift)
                      then incr shift (scores st) else scores st |}
  else Some st.

(** A [for] loop over [l] whose body can run into undefined behaviour. *)
Fixpoint for_each {S : Type} (body : Z → S → option S) (l : list Z) (st : S)
  : option S :=
  match l with
  | [] => Some st
  | i :: r =>
      match body i st with
      | Some st' => for_each body r st'
      | None => None
      end
  end.

(** [while (is.get(curr)) { for (shift ...) { ... } }] (cracker.cpp:193-208). *)
Fixpoint dict_scan (dictionary : WordSet) (s : source) (st : DictState)
  : option DictState :=
  match s with
  | src_byte curr rest =>
      match for_each (dict_body dictionary curr) shifts st with
      | Some st' => dict_scan dictionary rest st'
      | None => None
      end
  | _ => Some st
  end.

(** The loop over the trailing words (cracker.cpp:210-215). *)
Definition flush_body (dictionary : WordSet) (ws : list string)
    (scores : KeyScoreMap) (shift : Z) : KeyScoreMap :=
  if count dictionary (word_at ws shift) then incr shift scores else scores.

Definition dict_flush (dictionary : WordSet) (st : DictState) : KeyScoreMap :=
  foldl (flush_body dictionary (words st)) (scores st) shifts.

Definition dict_init : DictState :=
  {| words := replicate (Z.to_nat kAsciiAlphabetSize) EmptyString; scores := ∅ |}.

Definition AsciiDictionaryAttack (ins dict_is : istream) : option KeyScoreMap :=
  let dictionary := LoadDictionary dict_is in
  match dict_scan dictionary (readable ins) dict_init with
  | Some st => Some (dict_flush dictionary st)
  | None => None
  end.

(** ** The dictionary attack for one candidate shift, after the specification *)

(** The shifted codes that candidate [shift] sees: section 4.1, step 1. *)
Definition shifted_codes (shift : Z) (bytes : list ascii) : list Z :=
  (λ c, (char_to_int c + shift) mod 128) <$> bytes.

(** Steps 2 to 4 of section 4.1 for one candidate, on its in-progress word
    buffer and its score (an absent key counts as score 0). *)
Definition spec_step (dictionary : WordSet) (st : string * Z) (shifted : Z)
  : string * Z :=
  if isalnum shifted then
    (fst st +:+ String (int_to_char (tolower shifted)) EmptyString, snd st)
  else if negb (is_empty (fst st)) && isspace shifted then
    (EmptyString, if count dictionary (fst st) then snd st + 1 else snd st)
  else st.

Definition spec_scan (dictionary : WordSet) (shift : Z) (bytes : list ascii)
  : string * Z :=
  foldl (spec_step dictionary) (EmptyString, 0) (shifted_codes shift bytes).

(** Step 5 of section 4.1: the trailing buffer is looked up when it is not
    empty. *)
Definition spec_score (dictionary : WordSet) (shift : Z) (bytes : list ascii) : Z :=
  let st := spec_scan dictionary shift bytes in
  if negb (is_empty (fst st)) && count dictionary (fst st)
  then snd st + 1 else snd st.

(** The number of dictionary lookups that succeed for one candidate in the
    program: those of the scan and the one of the trailing loop, which looks
    the buffer up whether it is empty or not (cracker.cpp:212). *)
Definition lookup_hits (dictionary : WordSet) (shift : Z) (bytes : list ascii) : Z :=
  let st := spec_scan dictionary shift bytes in
  if count dictionary (fst st) then snd st + 1 else snd st.

(** A score as the sparse map stores it: no entry for 0. *)
Definition stored (score : Z) : option Z :=
  if score =? 0 then None else Some score.



(** The program state as candidate [shift] sees it. *)
Definition view (st : DictState) (shift : Z) : string * Z :=
  (word_at (words st) shift, default 0 (scores st !! shift)).

(** Only candidate shifts are keys and no key has a score below 1. *)
Definition sparse (m : KeyScoreMap) : Prop :=
  ∀ k v, m !! k = Some v → 0 ≤ k < 128 ∧ 1 ≤ v.

Definition well_formed (st : DictState) : Prop :=
  length (words st) = 128%nat ∧ sparse (scores st).

(** ** cracker.cpp: the frequency analysis attack *)

Abbreviation double := spec_float.

Definition dadd : double → double → double := SFadd prec emax.
Definition dsub : double → double → double := SFsub prec emax.
Definition ddiv : double → double → double := SFdiv prec emax.
Definition dabs : double → double := SFabs.
Definition dltb : double → double → bool := SFltb.
Definition deqb : double → double → bool := SFeqb.

Definition d0 : double := S754_zero false.
Definition d1 : double := Eval vm_compute in Prim2SF 1.0%float.

(** [std::numeric_limits<double>::max()]. *)
Definition DBL_MAX : double :=
  Eval vm_compute in Prim2SF 0x1.fffffffffffffp+1023%float.

Abbreviation CharFrequencies := (list double).
Abbreviation CharFrequencyArray := (list (list double)).

(** The table [kAsciiFreqDistro] of [ManhattanDist], each literal rounded
    to the nearest binary64 value as the compiler does. *)
Definition kAsciiFreqDistro : CharFrequencies :=
  Eval vm_compute in map Prim2SF [
    0.0; 0.0; 0.0; 0.0;
    0.0; 6.338218895840436e-08; 0.0; 0.0;
    0.0; 1.2676437791680872e-07; 0.019578060965172565; 0.0;
    0.0; 0.0; 0.0; 0.0;
    0.0; 0.0; 0.0; 0.0;
    0.0; 0.0; 0.0; 0.0;
    0.0; 0.0; 0.0; 6.338218895840436e-08;
    0.0; 0.0; 6.338218895840436e-08; 0.0;
    0.167564443682168; 5.070575116672349e-07; 0.0015754276887500987; 0.0;
    5.070575116672349e-07; 0.0; 2.0282300466689395e-06; 0.0015078622753204398;
    0.0003307916441739124; 0.0003314254660634964; 4.436753227088305e-07; 1.5211725350017046e-06;
    0.008634492219614468; 0.002076717421222119; 0.011055184780313847; 0.000519607185080999;
    0.005918945715880591; 0.004937789430804492; 0.002756237869045172; 0.0021865587546870337;
    0.0018385271551164353; 0.0025269211093936652; 0.0019199098857390264; 0.0018243295447897528;
    0.002552781042488694; 0.002442242504945237; 0.00012036277683200988; 7.41571610813331e-06;
    0.00044107665296153596; 2.5352875583361743e-07; 0.0004404428310719519; 4.626899793963519e-06;
    6.338218895840436e-08; 0.0024774830020061096; 0.0017387002075069484; 0.002987392712176473;
    0.0010927723198318497; 0.0012938206232079082; 0.001220297284016159; 0.0009310209736100016;
    0.0008752446473266058; 0.0020910417959267183; 0.0008814561018445294; 0.0003808001912620934;
    0.0010044809306127922; 0.0018134911904778657; 0.0012758834637326799; 0.0008210528757671701;
    0.00138908405321239; 0.00010001709417636208; 0.0011037374385216535; 0.0030896915651553373;
    0.0030701064687671904; 0.0010426370083657518; 0.0002556203680692448; 0.0008048270353938186;
    6.572732994986532e-05; 0.00025194420110965734; 8.619977698342993e-05; 6.97204078542448e-07;
    0.0; 6.338218895840436e-07; 2.2183766135441526e-06; 1.2676437791680872e-07;
    0.0; 0.0612553996079051; 0.01034644514338097; 0.02500268898936656;
    0.03188948073064199; 0.08610229517681191; 0.015750347191785568; 0.012804659959943725;
    0.02619237267611581; 0.05480626188138746; 0.000617596049210692; 0.004945712204424292;
    0.03218192615049607; 0.018140172626462205; 0.05503703643138501; 0.0541904405334676;
    0.017362092874808832; 0.00100853739070613; 0.051525029341199825; 0.0518864979648296;
    0.0632964962389326; 0.019247776378510318; 0.007819143740853554; 0.009565830104169261;
    0.0023064144740073764; 0.010893686962847832; 0.0005762708620098124; 6.338218895840436e-08;
    0.0; 0.0; 1.9014656687521307e-07; 3.1057272589618137e-06
  ]%float.

(** [a[i]] for an index in range. *)
Definition cell (a : CharFrequencies) (i : Z) : double :=
  default S754_nan (a !! Z.to_nat i).

Definition row (freqs : CharFrequencyArray) (shift : Z) : CharFrequencies :=
  default [] (freqs !! Z.to_nat shift).

(** [ManhattanDist]: the sum is accumulated from bucket 0 upwards. *)
Definition ManhattanDist (observed : CharFrequencies) : double :=
  foldl (λ sum i, dadd sum (dabs (dsub (cell observed i) (cell kAsciiFreqDistro i))))
        d0 shifts.

(** The body of the loop of [FindMinDistShifts]; the state is
    [(scores, min_dist)]. *)
Definition min_body (freqs : CharFrequencyArray)
    (st : KeyScoreMap * double) (shift : Z) : KeyScoreMap * double :=
  let dist := ManhattanDist (row freqs shift) in
  if dltb dist (snd st) then (incr shift ∅, dist)
  else if deqb dist (snd st) then (incr shift (fst st), snd st)
  else st.

Definition FindMinDistShifts (freqs : CharFrequencyArray) : KeyScoreMap :=
  fst (foldl (min_body freqs) (∅, DBL_MAX) shifts).

(** The distance that [FindMinDistShifts] computes for a candidate. *)
Definition dist (freqs : CharFrequencyArray) (shift : Z) : double :=
  ManhattanDist (row freqs shift).

(** [x <= y] on [double]. *)
Definition dleb : double → double → bool := SFleb.

(** The invariant of the loop of [FindMinDistShifts] once the candidates
    [seen] are done, for the distances [d]: [min_dist] is a number at most
    [DBL_MAX], it is [DBL_MAX] or the distance of a candidate seen, no
    candidate seen is strictly closer, and the map holds exactly the
    candidates seen whose distance equals [min_dist], each with score 1. *)
Definition scan_inv (d : Z → double) (seen : list Z)
    (st : KeyScoreMap * double) : Prop :=
  dleb (snd st) DBL_MAX = true
  ∧ (snd st = DBL_MAX ∨ ∃ j, j ∈ seen ∧ snd st = d j)
  ∧ (∀ t, t ∈ seen → dltb (d t) (snd st) = false)
  ∧ (∀ k v, fst st !! k = Some v ↔
       k ∈ seen ∧ deqb (d k) (snd st) = true ∧ v = 1).

(** Neither finite nor zero: a NaN or an infinity. *)
Definition unbounded (x : double) : bool :=
  match x with S754_nan | S754_infinity _ => true | _ => false end.

(** A zero or a finite number. *)
Definition bounded_value (x : double) : bool := negb (unbounded x).

(** A NaN or [+infinity]: what a sum of absolute values degenerates to. *)
Definition nan_or_pinf (x : double) : bool :=
  match x with S754_nan | S754_infinity false => true | _ => false end.

(** [freqs[shift][tmp]++]; an index outside the array is undefined
    behaviour. *)
Definition tally (tmp : Z) (shift : Z) (freqs : CharFrequencyArray)
  : option CharFrequencyArray :=
  if (0 <=? tmp) && (tmp <? kAsciiAlphabetSize)
  then Some (alter (alter (λ v, dadd v d1) (Z.to_nat tmp)) (Z.to_nat shift) freqs)
  else None.

Definition freq_body (curr : ascii) (shift : Z) (freqs : CharFrequencyArray)
  : option CharFrequencyArray :=
  tally (Z.rem (char_to_int curr + shift) kAsciiAlphabetSize) shift freqs.

(** [while (is.get(curr)) { for (shift ...) { ... } num_chars++; }]
    (cracker.cpp:224-233); the state is [(freqs, num_chars)]. *)
Fixpoint freq_scan (s : source) (st : CharFrequencyArray * double)
  : option (CharFrequencyArray * double) :=
  match s with
  | src_byte curr rest =>
      match for_each (freq_body curr) shifts (fst st) with
      | Some freqs' => freq_scan rest (freqs', dadd (snd st) d1)
      | None => None
      end
  | _ => Some st
  end.

(** [for (auto& table : freqs) for (double& val : table) val /= num_chars;] *)
Definition normalize (freqs : CharFrequencyArray) (num_chars : double)
  : CharFrequencyArray :=
  (λ table : CharFrequencies, (λ val, ddiv val num_chars) <$> table) <$> freqs.

(** [CharFrequencyArray freqs;] has no initialiser: the array starts with
    whatever its storage holds.  [uninit shift i] stands for the value found
    in [freqs[shift][i]]. *)
Definition freqs_storage (uninit : Z → Z → double) : CharFrequencyArray :=
  (λ shift, uninit shift <$> shifts) <$> shifts.

(** Storage that happens to hold zeros, as on a fresh stack page. *)
Definition zeroed : Z → Z → double := λ _ _, d0.

(** The array at the call of [FindMinDistShifts]. *)
Definition freq_table (uninit : Z → Z → double) (ins : istream)
  : option CharFrequencyArray :=
  match freq_scan (readable ins) (freqs_storage uninit, d0) with
  | Some (freqs, num_chars) => Some (normalize freqs num_chars)
  | None => None
  end.

Definition AsciiFrequencyAnalysisAttack (uninit : Z → Z → double)
    (ins : istream) : option KeyScoreMap :=
  match freq_table uninit ins with
  | Some freqs => Some (FindMinDistShifts freqs)
  | None => None
  end.

(** ** The frequency attack for one candidate shift, after the specification *)

(** Section 4.2, step 1: a byte is one observation of the bucket of its
    shifted code. *)
Definition hist_step (shift : Z) (h : CharFrequencies) (c : ascii)
  : CharFrequencies :=
  alter (λ v, dadd v d1) (Z.to_nat ((char_to_int c + shift) mod 128)) h.

(** The histogram of a candidate, accumulated on top of [init]. *)
Definition hist_from (init : CharFrequencies) (shift : Z) (bytes : list ascii)
  : CharFrequencies :=
  foldl (hist_step shift) init bytes.

(** The count of bytes processed, shared by all candidates. *)
Definition byte_count (bytes : list ascii) : double :=
  foldl (λ n _, dadd n d1) d0 bytes.

(** Step 2: the histogram that starts from zero, bucket by bucket divided
    by the byte count. *)
Definition spec_distribution (shift : Z) (bytes : list ascii) : CharFrequencies :=
  (λ v, ddiv v (byte_count bytes))
    <$> hist_from (replicate (Z.to_nat kAsciiAlphabetSize) d0) shift bytes.

(** Step 3: the Manhattan distance to the reference distribution. *)
Definition spec_distance (shift : Z) (bytes : list ascii) : double :=
  ManhattanDist (spec_distribution shift bytes).

(** Storage that holds 1.0 in [freqs[0][0]] and zeros elsewhere. *)
Definition stale : Z → Z → double :=
  λ shift i, if (shift =? 0) && (i =? 0) then d1 else d0.

(** ** ccracker.cpp *)

(** The body of the loop of [FindKeys]; the state is [(max_score, keys)]. *)
Definition find_keys_body (st : Z * list Z) (entry : Z * Z) : Z * list Z :=
  if snd entry >? fst st then (snd entry, [fst entry])
  else if snd entry =? fst st then (fst st, snd st ++ [fst entry])
  else st.

(** [FindKeys] on the entries of the score map, in the order in which the
    iteration of the [std::unordered_map] delivers them. *)
Definition FindKeys (entries : list (Z * Z)) : list Z :=
  snd (foldl find_keys_body (0, []) entries).

(** The iteration order of a [std::unordered_map] is unspecified: any
    arrangement of its entries is an iteration of it. *)
Definition iteration_of (scores : KeyScoreMap) (entries : list (Z * Z)) : Prop :=
  entries ≡ₚ map_to_list scores.

(** What [PrintProbableKeys] writes to [std::cout]. *)
Definition PrintProbableKeys (entries : list (Z * Z)) : string :=
  let keys := FindKeys entries in
  match keys with
  | [] => "no viable key found" +:+ String "010" EmptyString
  | _ => "most probable key(s): "
         +:+ foldr (λ key out, pretty key +:+ " " +:+ out)
               (String "010" EmptyString) keys
  end.

(** ** Notions used in the statements *)

(** The byte that ends a line. *)
Definition newline : ascii := "010"%char.

(** The bytes [l] followed by what [s] delivers. *)
Fixpoint source_app (l : list ascii) (s : source) : source :=
  match l with
  | [] => s
  | c :: r => src_byte c (source_app r s)
  end.

(** The bytes of a word-list file: every line followed by a newline. *)
Definition unlines (lines : list string) : list ascii :=
  concat ((λ l, string_bytes l ++ [newline]) <$> lines).

Definition no_newline (w : string) : Prop := newline ∉ string_bytes w.

(** The code of a byte, as an [unsigned char]. *)
Definition code (c : ascii) : Z := Z.of_N (N_of_ascii c).

(** A word of digits and lowercase letters only. *)
Definition lower_alnum (w : string) : Prop :=
  Forall (λ c, isdigit (code c) || islower (code c) = true) (string_bytes w).

(** A code that the scan of a candidate reacts to. *)
Definition relevant (z : Z) : bool := isalnum z || isspace z.

(** A number that is not negative: a zero, a positive finite number or
    [+infinity]; or a NaN. *)
Definition not_negative (x : double) : bool :=
  match x with
  | S754_zero _ | S754_nan => true
  | S754_infinity s | S754_finite s _ _ => negb s
  end.

(** The byte that comes back when the key [-j] is applied after the key
    [j]: the byte itself when its code plus [j] stayed below 128, and the
    byte whose code is 128 higher when the sum wrapped around. *)
Definition unshifted (j : Z) (c : ascii) : ascii :=
  if char_to_int c + j <? 128 then c else ascii_of_N (N_of_ascii c + 128).

Example attack_at_dawn_freq :
  AsciiFrequencyAnalysisAttack zeroed
    (stream_of (encrypt 27 (string_bytes "attack at dawn")))
  = Some {[ 101 := 1 ]}.
Proof. vm_compute. reflexivity. Qed.

Example attack_at_dawn :
  AsciiDictionaryAttack
    (stream_of (encrypt 27 (string_bytes "attack at dawn")))
    (stream_of (string_bytes "attack
at
dawn
"))
  = Some {[ 101 := 3 ]}.
Proof. vm_compute. reflexivity. Qed.

(** * Properties *)

(** ** Arithmetic of the shift *)

Lemma char_to_int_ascii (c : ascii) :
  is_ascii c = true → 0 ≤ char_to_int c < 128.
Proof.
  unfold is_ascii, char_to_int. intros H. rewrite H.
  apply Z.ltb_lt in H. lia.
Qed.

(** A sum that stays in the range of [int] is not wrapped. *)
Lemma int_add_small (x y : Z) :
  - INT_MAX - 1 ≤ x + y ≤ INT_MAX → int_add x y = x + y.
Proof.
  unfold int_add, int_wrap, INT_MAX. intros H.
  rewrite Z.mod_small by lia. lia.
Qed.

(** The byte written for an ASCII byte, under a key that leaves room for
    the 127 codes. *)
Lemma shift_char_in_range (k : Z) (c : ascii) :
  is_ascii c = true → - INT_MAX - 1 ≤ k ≤ INT_MAX - 127 →
  shift_char k c = int_to_char (Z.rem (char_to_int c + k) kAsciiAlphabetSize).
Proof.
  intros Hc Hk. pose proof (char_to_int_ascii c Hc) as Hr.
  unfold shift_char. by rewrite int_add_small by lia.
Qed.

Lemma elem_of_shifts (s : Z) : s ∈ shifts ↔ 0 ≤ s < 128.
Proof. unfold shifts, kAsciiAlphabetSize. rewrite elem_of_seqZ. lia. Qed.

Lemma NoDup_shifts : NoDup shifts.
Proof. apply NoDup_seqZ. Qed.

(** On ASCII bytes and candidate shifts the truncating [%] is the
    mathematical [mod], and the shifted code is again ASCII. *)
Lemma shifted_ascii (c : ascii) (s : Z) :
  is_ascii c = true → 0 ≤ s < 128 →
  Z.rem (char_to_int c + s) kAsciiAlphabetSize = (char_to_int c + s) mod 128
  ∧ 0 ≤ (char_to_int c + s) mod 128 < 128.
Proof.
  intros Hc Hs. apply char_to_int_ascii in Hc. unfold kAsciiAlphabetSize.
  split; [apply Z.rem_mod_nonneg; lia | apply Z.mod_pos_bound; lia].
Qed.

(** ** Loops that cannot go wrong *)

Lemma for_each_is_Some {S : Type} (body : Z → S → option S) (l : list Z) :
  (∀ i st, i ∈ l → is_Some (body i st)) →
  ∀ st, is_Some (for_each body l st).
Proof.
  induction l as [|i l IH]; intros Hb st; simpl; [eauto|].
  destruct (Hb i st) as [st' ->]; [left|].
  apply IH. intros j st'' Hj. apply Hb. by right.
Qed.

Lemma dict_body_is_Some dictionary c s st :
  is_ascii c = true → 0 ≤ s < 128 → is_Some (dict_body dictionary c s st).
Proof.
  intros Hc Hs. destruct (shifted_ascii c s Hc Hs) as [E R].
  unfold dict_body. rewrite E.
  replace (ctype_arg_ok _) with true
    by (symmetry; unfold ctype_arg_ok; apply andb_true_iff; split; apply Z.leb_le; lia).
  cbn [negb]. destruct (isalnum _); [eauto|]. destruct (_ && _); eauto.
Qed.

Lemma freq_body_is_Some c s freqs :
  is_ascii c = true → 0 ≤ s < 128 → is_Some (freq_body c s freqs).
Proof.
  intros Hc Hs. destruct (shifted_ascii c s Hc Hs) as [E R].
  unfold freq_body, tally. rewrite E.
  replace (_ && _) with true
    by (symmetry; apply andb_true_iff; split; [apply Z.leb_le|apply Z.ltb_lt];
        unfold kAsciiAlphabetSize; lia).
  eauto.
Qed.

Lemma dict_scan_is_Some dictionary s :
  Forall (λ c, is_ascii c = true) (source_bytes s) →
  ∀ st, is_Some (dict_scan dictionary s st).
Proof.
  induction s as [| |c rest IH]; cbn [dict_scan source_bytes];
    intros Hall st; eauto.
  apply Forall_cons in Hall as [Hc Hall].
  destruct (for_each_is_Some (dict_body dictionary c) shifts) with (st := st)
    as [st' ->]; [|by apply IH].
  intros i st0 Hi. apply dict_body_is_Some; [done|by apply elem_of_shifts].
Qed.

Lemma freq_scan_is_Some s :
  Forall (λ c, is_ascii c = true) (source_bytes s) →
  ∀ st, is_Some (freq_scan s st).
Proof.
  induction s as [| |c rest IH]; cbn [freq_scan source_bytes];
    intros Hall st; eauto.
  apply Forall_cons in Hall as [Hc Hall].
  destruct (for_each_is_Some (freq_body c) shifts) with (st := fst st)
    as [st' ->]; [|by apply IH].
  intros i st0 Hi. apply freq_body_is_Some; [done|by apply elem_of_shifts].
Qed.

Lemma source_bytes_readable ins : source_bytes (readable ins) = bytes_read ins.
Proof. unfold readable, bytes_read. by destruct (failed ins). Qed.

(** C10.  On a stream of ASCII bytes every shifted code [(b + shift) % 128]
    is the mathematical residue and lies in [0, 127]; it is therefore a
    valid argument of [isalnum], [isspace] and [tolower] and a valid index
    of [freqs[shift]], and both attacks return a result (no undefined
    behaviour is reached), whatever the dictionary stream and the initial
    contents of [freqs]. *)
Theorem shifted_code_in_range (ins dict_is : istream) (uninit : Z → Z → double) :
  Forall (λ c, is_ascii c = true) (bytes_read ins) →
  (∀ c shift, c ∈ bytes_read ins → 0 ≤ shift < 128 →
     let tmp := Z.rem (char_to_int c + shift) kAsciiAlphabetSize in
     tmp = (char_to_int c + shift) mod 128
     ∧ 0 ≤ tmp < 128
     ∧ ctype_arg_ok tmp = true
     ∧ is_Some (tally tmp shift (freqs_storage uninit)))
  ∧ is_Some (AsciiDictionaryAttack ins dict_is)
  ∧ is_Some (AsciiFrequencyAnalysisAttack uninit ins).
Proof.
  intros Hall. split_and!.
  - intros c shift Hc Hs tmp.
    rewrite Forall_forall in Hall. specialize (Hall c Hc).
    destruct (shifted_ascii c shift Hall Hs) as [E R]. subst tmp.
    rewrite E. split_and!; try lia.
    + unfold ctype_arg_ok. apply andb_true_iff; split; apply Z.leb_le; lia.
    + rewrite <- E. by apply freq_body_is_Some.
  - unfold AsciiDictionaryAttack.
    destruct (dict_scan_is_Some (LoadDictionary dict_is) (readable ins))
      with (st := dict_init) as [st ->]; [|eauto].
    by rewrite source_bytes_readable.
  - unfold AsciiFrequencyAnalysisAttack, freq_table.
    destruct (freq_scan_is_Some (readable ins))
      with (st := (freqs_storage uninit, d0)) as [[f n] ->]; [|eauto].
    by rewrite source_bytes_readable.
Qed.

Lemma shifted_code_in_range_witness :
  is_Some (AsciiDictionaryAttack (stream_of (string_bytes "Zz9"))
             (stream_of (string_bytes "zz9")))
  ∧ is_Some (AsciiFrequencyAnalysisAttack zeroed (stream_of (string_bytes "Zz9"))).
Proof.
  apply (shifted_code_in_range (stream_of (string_bytes "Zz9"))
           (stream_of (string_bytes "zz9")) zeroed).
  repeat constructor.
Defined.

(** ** The dictionary attack, candidate by candidate *)

Lemma sparse_lookup (m : KeyScoreMap) (k : Z) :
  sparse m → m !! k = stored (default 0 (m !! k)).
Proof.
  intros Hm. unfold stored. destruct (m !! k) as [v|] eqn:E; [|done].
  apply Hm in E as [_ Hv]. simpl. by rewrite (proj2 (Z.eqb_neq v 0)) by lia.
Qed.

Lemma sparse_outside (m : KeyScoreMap) (k : Z) :
  sparse m → ¬ (0 ≤ k < 128) → m !! k = None.
Proof.
  intros Hm Hk. destruct (m !! k) as [v|] eqn:E; [|done].
  apply Hm in E as [? _]. lia.
Qed.

Lemma sparse_nonneg (m : KeyScoreMap) (k : Z) : sparse m → 0 ≤ default 0 (m !! k).
Proof.
  intros Hm. destruct (m !! k) as [v|] eqn:E; simpl; [|lia].
  apply Hm in E. lia.
Qed.

Lemma sparse_empty : sparse ∅.
Proof. intros k v. by rewrite lookup_empty. Qed.

Lemma sparse_incr (m : KeyScoreMap) (s : Z) :
  sparse m → 0 ≤ s < 128 → sparse (incr s m).
Proof.
  intros Hm Hs k v. unfold incr. rewrite lookup_insert.
  case_decide as E; [|apply Hm].
  intros [= <-]. subst k. pose proof (sparse_nonneg m s Hm). lia.
Qed.

Lemma incr_same (m : KeyScoreMap) (s : Z) :
  default 0 (incr s m !! s) = default 0 (m !! s) + 1.
Proof. unfold incr. by rewrite lookup_insert_eq. Qed.

Lemma incr_other (m : KeyScoreMap) (s t : Z) : t ≠ s → incr s m !! t = m !! t.
Proof. intros. unfold incr. by rewrite lookup_insert_ne. Qed.

Lemma word_at_insert_same (ws : list string) (s : Z) (w : string) :
  0 ≤ s < 128 → length ws = 128%nat → word_at (<[Z.to_nat s := w]> ws) s = w.
Proof.
  intros Hs Hl. unfold word_at. rewrite list_lookup_insert_eq; [done|lia].
Qed.

Lemma word_at_insert_other (ws : list string) (s t : Z) (w : string) :
  0 ≤ s → 0 ≤ t → t ≠ s → word_at (<[Z.to_nat s := w]> ws) t = word_at ws t.
Proof.
  intros Hs Ht Hne. unfold word_at. rewrite list_lookup_insert_ne; [done|lia].
Qed.

(** One execution of the body of the inner loop performs the step of the
    specification for its candidate and leaves the others alone. *)
Lemma dict_body_spec dictionary c s st :
  is_ascii c = true → 0 ≤ s < 128 → well_formed st →
  ∃ st', dict_body dictionary c s st = Some st'
    ∧ well_formed st'
    ∧ view st' s = spec_step dictionary (view st s) ((char_to_int c + s) mod 128)
    ∧ ∀ t, 0 ≤ t < 128 → t ≠ s → view st' t = view st t.
Proof.
  intros Hc Hs [Hlen Hsp]. destruct (shifted_ascii c s Hc Hs) as [E R].
  unfold dict_body. rewrite E.
  replace (ctype_arg_ok _) with true
    by (symmetry; unfold ctype_arg_ok; apply andb_true_iff; split; apply Z.leb_le; lia).
  cbn [negb]. unfold spec_step, view at 2 3 4 5. cbn [fst snd].
  destruct (isalnum _) eqn:Ealnum.
  - eexists. split; [done|]. unfold well_formed, view. cbn [words scores].
    rewrite length_insert, word_at_insert_same by done.
    split_and!; try done.
    intros t Ht Hne. by rewrite word_at_insert_other by lia.
  - destruct (negb (is_empty (word_at (words st) s)) && isspace _) eqn:Esp.
    + eexists. split; [done|]. unfold well_formed, view. cbn [words scores].
      rewrite length_insert, word_at_insert_same by done.
      destruct (count dictionary _).
      * rewrite incr_same. split_and!; try done; [by apply sparse_incr|].
        intros t Ht Hne.
        by rewrite word_at_insert_other, incr_other by lia.
      * split_and!; try done.
        intros t Ht Hne. by rewrite word_at_insert_other by lia.
    + eexists. split; [done|]. split_and!; done.
Qed.

(** The inner loop over a set of candidates. *)
Lemma dict_row_spec dictionary c l :
  is_ascii c = true → NoDup l → (∀ s, s ∈ l → 0 ≤ s < 128) →
  ∀ st, well_formed st →
  ∃ st', for_each (dict_body dictionary c) l st = Some st'
    ∧ well_formed st'
    ∧ ∀ t, 0 ≤ t < 128 →
        view st' t =
          if bool_decide (t ∈ l)
          then spec_step dictionary (view st t) ((char_to_int c + t) mod 128)
          else view st t.
Proof.
  intros Hc. induction l as [|s l IH]; intros Hnd Hin st Hwf.
  - exists st. split_and!; try done.
  - apply NoDup_cons in Hnd as [Hs Hnd].
    destruct (dict_body_spec dictionary c s st Hc) as (st1 & E1 & Hwf1 & Hs1 & Ho1);
      [apply Hin; left|done|].
    destruct (IH Hnd) with (st := st1) as (st2 & E2 & Hwf2 & H2);
      [intros; apply Hin; by right|done|].
    exists st2. cbn [for_each]. rewrite E1. split_and!; try done.
    intros t Ht. rewrite (H2 t Ht).
    destruct (decide (t = s)) as [->|Hne].
    + rewrite (bool_decide_eq_false_2 (s ∈ l)) by done.
      rewrite (bool_decide_eq_true_2 (s ∈ s :: l)) by left. done.
    + rewrite (Ho1 t Ht Hne).
      destruct (decide (t ∈ l)) as [Hl|Hl].
      * rewrite (bool_decide_eq_true_2 (t ∈ l)) by done.
        rewrite (bool_decide_eq_true_2 (t ∈ s :: l)) by (by right). done.
      * rewrite (bool_decide_eq_false_2 (t ∈ l)) by done.
        rewrite (bool_decide_eq_false_2 (t ∈ s :: l)); [done|].
        rewrite elem_of_cons. tauto.
Qed.

(** The scan of a stream is, for every candidate, the scan of the
    specification over the bytes read. *)
Lemma dict_scan_spec dictionary s :
  Forall (λ c, is_ascii c = true) (source_bytes s) →
  ∀ st, well_formed st →
  ∃ st', dict_scan dictionary s st = Some st'
    ∧ well_formed st'
    ∧ ∀ t, 0 ≤ t < 128 →
        view st' t = foldl (spec_step dictionary) (view st t)
                       (shifted_codes t (source_bytes s)).
Proof.
  induction s as [| |c rest IH]; cbn [dict_scan source_bytes];
    intros Hall st Hwf; [by exists st..|].
  apply Forall_cons in Hall as [Hc Hall].
  destruct (dict_row_spec dictionary c shifts Hc NoDup_shifts) with (st := st)
    as (st1 & E1 & Hwf1 & H1); [by intros ? ?%elem_of_shifts|done|].
  destruct (IH Hall st1 Hwf1) as (st2 & E2 & Hwf2 & H2).
  exists st2. rewrite E1. split_and!; try done.
  intros t Ht. rewrite (H2 t Ht), (H1 t Ht).
  by rewrite bool_decide_eq_true_2 by (by apply elem_of_shifts).
Qed.

Lemma flush_fold_spec dictionary ws l :
  NoDup l → (∀ s, s ∈ l → 0 ≤ s < 128) →
  ∀ m, sparse m →
  sparse (foldl (flush_body dictionary ws) m l)
  ∧ ∀ t, default 0 (foldl (flush_body dictionary ws) m l !! t) =
      if bool_decide (t ∈ l) && count dictionary (word_at ws t)
      then default 0 (m !! t) + 1 else default 0 (m !! t).
Proof.
  induction l as [|s l IH]; intros Hnd Hin m Hm; [done|].
  apply NoDup_cons in Hnd as [Hs Hnd]. cbn [foldl].
  assert (Hm' : sparse (flush_body dictionary ws m s)).
  { unfold flush_body. destruct (count _ _); [|done].
    apply sparse_incr; [done|]. apply Hin. left. }
  destruct (IH Hnd) with (m := flush_body dictionary ws m s) as [Hsp Hl];
    [intros; apply Hin; by right|done|].
  split; [done|]. intros t. rewrite Hl.
  destruct (decide (t = s)) as [->|Hne].
  - rewrite (bool_decide_eq_false_2 (s ∈ l)) by done.
    rewrite (bool_decide_eq_true_2 (s ∈ s :: l)) by left. cbn [andb].
    unfold flush_body. destruct (count _ _); [|done]. by rewrite incr_same.
  - assert (bool_decide (t ∈ s :: l) = bool_decide (t ∈ l)) as ->.
    { apply bool_decide_ext. rewrite elem_of_cons. tauto. }
    unfold flush_body at 1 2. destruct (count dictionary (word_at ws s));
      [by rewrite incr_other by done|done].
Qed.

Lemma well_formed_init : well_formed dict_init.
Proof. split; [done|apply sparse_empty]. Qed.

Lemma view_init (t : Z) : view dict_init t = (EmptyString, 0).
Proof.
  unfold view, dict_init, word_at. cbn [words scores].
  rewrite lookup_empty. by destruct (replicate _ _ !! _) eqn:E;
    [apply lookup_replicate in E as [-> _]|].
Qed.

(** The result of the dictionary attack, candidate by candidate: the map
    holds for each candidate shift the number of its successful dictionary
    lookups, and no entry when there is none. *)
Theorem AsciiDictionaryAttack_scores (ins dict_is : istream) :
  Forall (λ c, is_ascii c = true) (bytes_read ins) →
  ∃ m, AsciiDictionaryAttack ins dict_is = Some m
    ∧ sparse m
    ∧ ∀ t, 0 ≤ t < 128 →
        m !! t = stored (lookup_hits (LoadDictionary dict_is) t (bytes_read ins)).
Proof.
  intros Hall. rewrite <- source_bytes_readable in Hall |- *.
  unfold AsciiDictionaryAttack.
  destruct (dict_scan_spec (LoadDictionary dict_is) (readable ins) Hall
              dict_init well_formed_init) as (st & -> & [Hlen Hsp] & Hv).
  destruct (flush_fold_spec (LoadDictionary dict_is) (words st) shifts
              NoDup_shifts) with (m := scores st) as [Hsp' Hl];
    [by intros ? ?%elem_of_shifts|done|].
  eexists. split; [done|]. split; [done|]. intros t Ht.
  unfold dict_flush. rewrite (sparse_lookup _ t Hsp'), Hl. f_equal.
  rewrite bool_decide_eq_true_2 by (by apply elem_of_shifts). cbn [andb].
  unfold lookup_hits, spec_scan. rewrite <- view_init with (t := t), <- (Hv t Ht).
  done.
Qed.

(** A map with no entry for any candidate is empty. *)
Lemma sparse_empty_iff (m : KeyScoreMap) :
  sparse m → (m = ∅ ↔ ∀ t, 0 ≤ t < 128 → m !! t = None).
Proof.
  intros Hm. split; [by intros -> ? ?|].
  intros H. apply map_eq. intros k. rewrite lookup_empty.
  destruct (decide (0 ≤ k < 128)); [by apply H|by apply sparse_outside].
Qed.

Lemma stored_None (z : Z) : stored z = None ↔ z = 0.
Proof. unfold stored. destruct (Z.eqb_spec z 0); naive_solver. Qed.

Lemma stored_Some (z v : Z) : stored z = Some v ↔ z = v ∧ v ≠ 0.
Proof. unfold stored. destruct (Z.eqb_spec z 0); naive_solver. Qed.

(** The score of the specification's scan never decreases. *)
Lemma spec_step_score dictionary st code :
  snd st ≤ snd (spec_step dictionary st code) ≤ snd st + 1.
Proof.
  unfold spec_step. destruct (isalnum code); [cbn [snd]; lia|].
  destruct (_ && _); [|lia]. cbn [snd]. destruct (count _ _); lia.
Qed.

Lemma spec_fold_score dictionary codes :
  ∀ st, snd st ≤ snd (foldl (spec_step dictionary) st codes).
Proof.
  induction codes as [|code codes IH]; intros st; cbn [foldl]; [lia|].
  pose proof (spec_step_score dictionary st code).
  specialize (IH (spec_step dictionary st code)). lia.
Qed.

Lemma lookup_hits_nonneg dictionary t bytes : 0 ≤ lookup_hits dictionary t bytes.
Proof.
  unfold lookup_hits, spec_scan.
  pose proof (spec_fold_score dictionary (shifted_codes t bytes) (EmptyString, 0)) as H.
  cbn [snd] in H. case_match; lia.
Qed.

(** With an empty word set no lookup succeeds. *)
Lemma count_empty (w : string) : count ∅ w = false.
Proof. unfold count. by apply bool_decide_eq_false_2, not_elem_of_empty. Qed.

Lemma spec_fold_empty codes :
  ∀ st, snd (foldl (spec_step ∅) st codes) = snd st.
Proof.
  induction codes as [|code codes IH]; intros st; cbn [foldl]; [done|].
  rewrite IH. unfold spec_step. rewrite count_empty. by repeat case_match.
Qed.

Lemma lookup_hits_empty t bytes : lookup_hits ∅ t bytes = 0.
Proof.
  unfold lookup_hits, spec_scan. by rewrite count_empty, spec_fold_empty.
Qed.

(** A dictionary stream that is unreadable or delivers no byte loads the
    empty word set. *)
Lemma LoadDictionary_nothing (dict_is : istream) :
  failed dict_is = true ∨ bytes_read dict_is = [] → LoadDictionary dict_is = ∅.
Proof.
  unfold LoadDictionary, readable, bytes_read.
  destruct (failed dict_is); [done|]. intros [[=]|H].
  by destruct (data dict_is).
Qed.

(** C7.  When the dictionary stream is unreadable or delivers no byte, the
    dictionary attack on a readable, non-empty ASCII ciphertext returns the
    empty score map. *)
Theorem empty_dictionary_empty_scores (ins dict_is : istream) :
  failed ins = false → bytes_read ins ≠ [] →
  Forall (λ c, is_ascii c = true) (bytes_read ins) →
  failed dict_is = true ∨ bytes_read dict_is = [] →
  AsciiDictionaryAttack ins dict_is = Some ∅.
Proof.
  intros _ _ Hall Hd.
  destruct (AsciiDictionaryAttack_scores ins dict_is Hall) as (m & -> & Hsp & Hm).
  f_equal. apply sparse_empty_iff; [done|]. intros t Ht.
  rewrite (Hm t Ht), (LoadDictionary_nothing dict_is Hd), lookup_hits_empty. done.
Qed.

Lemma empty_dictionary_empty_scores_witness :
  AsciiDictionaryAttack (stream_of (string_bytes "at dawn"))
    (bad_stream (source_of (string_bytes "at"))) = Some ∅
  ∧ AsciiDictionaryAttack (stream_of (string_bytes "at dawn")) (stream_of [])
    = Some ∅.
Proof.
  split.
  - apply (empty_dictionary_empty_scores (stream_of (string_bytes "at dawn"))
             (bad_stream (source_of (string_bytes "at"))));
      [reflexivity|discriminate|repeat constructor|left; reflexivity].
  - apply (empty_dictionary_empty_scores (stream_of (string_bytes "at dawn"))
             (stream_of []));
      [reflexivity|discriminate|repeat constructor|right; reflexivity].
Defined.



(** ** The order of [double] *)

(** Case analysis on the operands of a comparison, down to the comparison
    of exponents and mantissas. *)
Ltac sf_cases :=
  unfold dltb, deqb, dleb, SFltb, SFeqb, SFleb, SFcompare;
  repeat match goal with
         | x : spec_float |- _ => destruct x as [[]|[]| |[] ? ?]
         end;
  try discriminate; try reflexivity;
  repeat match goal with
         | |- context [Pos.compare_cont Eq ?a ?b] =>
             change (Pos.compare_cont Eq a b) with (Pos.compare a b);
             destruct (Pos.compare_spec a b)
         | |- context [Z.compare ?a ?b] => destruct (Z.compare_spec a b)
         end;
  cbn [CompOpp]; intros; subst;
  try discriminate; try reflexivity; try tauto; try lia.

Lemma dltb_trans (x y z : double) :
  dltb x y = true → dltb y z = true → dltb x z = true.
Proof. sf_cases. Qed.

Lemma deqb_dltb (x y z : double) :
  deqb x y = true → dltb y z = true → dltb x z = true.
Proof. sf_cases. Qed.

Lemma dltb_deqb (x y z : double) :
  dltb x y = true → deqb y z = true → dltb x z = true.
Proof. sf_cases. Qed.

Lemma dltb_irrefl (x : double) : dltb x x = false.
Proof. sf_cases. Qed.

Lemma dltb_not_nan_l (x y : double) : dltb x y = true → deqb x x = true.
Proof. sf_cases. Qed.

Lemma deqb_not_nan_r (x y : double) : deqb x y = true → deqb y y = true.
Proof. sf_cases. Qed.

Lemma deqb_sym (x y : double) : deqb x y = deqb y x.
Proof. sf_cases. Qed.

Lemma deqb_trans (x y z : double) :
  deqb x y = true → deqb y z = true → deqb x z = true.
Proof. sf_cases. Qed.

(** Two numbers (no NaN) are comparable. *)
Lemma double_trichotomy (x y : double) :
  deqb x x = true → deqb y y = true →
  dltb x y = true ∨ deqb x y = true ∨ dltb y x = true.
Proof. sf_cases. Qed.

Lemma dleb_spec (x y : double) :
  dleb x y = true ↔ dltb x y = true ∨ deqb x y = true.
Proof. sf_cases. Qed.

Lemma dleb_dltb_trans (x y z : double) :
  dltb x y = true → dleb y z = true → dltb x z = true.
Proof. sf_cases. Qed.

Lemma deqb_dleb (x y z : double) :
  deqb x y = true → dleb y z = true → dleb x z = true.
Proof. sf_cases. Qed.

Lemma dleb_not_nan_l (x y : double) : dleb x y = true → deqb x x = true.
Proof. sf_cases. Qed.

(** ** The scan for the minimal distance *)

Section MinScan.
Variable freqs : CharFrequencyArray.
Variable d : Z → double.
Hypothesis d_dist : ∀ shift, ManhattanDist (row freqs shift) = d shift.

Lemma min_body_inv seen st s :
  s ∉ seen → scan_inv d seen st → scan_inv d (s :: seen) (min_body freqs st s).
Proof.
  intros Hs (Hmax & Hatt & Hlow & Hkeys). unfold min_body.
  rewrite d_dist.
  destruct (dltb (d s) (snd st)) eqn:Elt; [|
    destruct (deqb (d s) (snd st)) eqn:Eeq]; unfold scan_inv; cbn [fst snd].
  - (* strictly closer: the map is reset *)
    split_and!.
    + apply dleb_spec. left. by eapply dleb_dltb_trans.
    + right. exists s. split; [left|done].
    + intros t [->|Ht]%elem_of_cons; [apply dltb_irrefl|].
      destruct (dltb (d t) (d s)) eqn:E; [|done].
      rewrite <- (Hlow t Ht). symmetry. by eapply dltb_trans.
    + intros k v. unfold incr. rewrite lookup_empty. cbn [default].
      rewrite lookup_insert. case_decide as Ek.
      * subst k. split.
        -- intros [= <-]. split_and!; [left| |done].
           by eapply dltb_not_nan_l.
        -- intros (_ & _ & ->). done.
      * rewrite lookup_empty. split; [done|].
        intros ([->|Hk]%elem_of_cons & Heq & _); [done|].
        pose proof (deqb_dltb _ _ _ Heq Elt) as Habs.
        by rewrite (Hlow k Hk) in Habs.
  - (* a tie: the candidate joins the map *)
    split_and!; [done| |..].
    + destruct Hatt as [->|(j & Hj & ->)]; [by left|].
      right. exists j. split; [by right|done].
    + intros t [->|Ht]%elem_of_cons; [done|by apply Hlow].
    + intros k v. unfold incr. rewrite lookup_insert. case_decide as Ek.
      * subst k. assert (fst st !! s = None) as ->.
        { destruct (fst st !! s) as [w|] eqn:E; [|done].
          apply Hkeys in E as [? _]. done. }
        cbn [default]. split.
        -- intros [= <-]. split_and!; [left|done|done].
        -- intros (_ & _ & ->). done.
      * rewrite Hkeys. rewrite elem_of_cons. split.
        -- intros (Hk & Heq & ->). split; [by right|done].
        -- intros ([->|Hk] & Heq & ->); done.
  - (* farther, or not a number: nothing changes *)
    split_and!; [done| |..].
    + destruct Hatt as [->|(j & Hj & ->)]; [by left|].
      right. exists j. split; [by right|done].
    + intros t [->|Ht]%elem_of_cons; [done|by apply Hlow].
    + intros k v. rewrite Hkeys. rewrite elem_of_cons. split.
      * intros (Hk & Heq & ->). split; [by right|done].
      * intros ([->|Hk] & Heq & ->); [congruence|done].
Qed.

Lemma min_fold_inv todo :
  ∀ seen st, NoDup todo → (∀ s, s ∈ todo → s ∉ seen) → scan_inv d seen st →
  scan_inv d (reverse todo ++ seen) (foldl (min_body freqs) st todo).
Proof.
  induction todo as [|s todo IH]; intros seen st Hnd Hfresh Hinv; [done|].
  apply NoDup_cons in Hnd as [Hs Hnd]. cbn [foldl].
  rewrite reverse_cons, <- app_assoc. apply IH; [done| |].
  - intros t Ht [->|Hin]%elem_of_cons; [done|].
    by apply (Hfresh t); [right|].
  - apply min_body_inv; [|done]. apply Hfresh. left.
Qed.

(** What [FindMinDistShifts] returns: the candidates whose distance is a
    number at most [DBL_MAX] that no candidate undercuts, each with
    score 1. *)
Lemma FindMinDistShifts_spec (k v : Z) :
  FindMinDistShifts freqs !! k = Some v ↔
    0 ≤ k < 128 ∧ v = 1
    ∧ dleb (d k) DBL_MAX = true
    ∧ ∀ t, 0 ≤ t < 128 → dltb (d t) (d k) = false.
Proof.
  destruct (min_fold_inv shifts [] (∅, DBL_MAX) NoDup_shifts)
    as (Hmax & Hatt & Hlow & Hkeys).
  { intros s _. apply not_elem_of_nil. }
  { split_and!; [done|by left|by intros ? ?%not_elem_of_nil|].
    intros k' v'. cbn [fst]. rewrite lookup_empty.
    split; [done|]. by intros [?%not_elem_of_nil _]. }
  rewrite app_nil_r in Hatt, Hlow, Hkeys.
  unfold FindMinDistShifts. rewrite Hkeys.
  set (m := snd (foldl (min_body freqs) (∅, DBL_MAX) shifts)) in *.
  rewrite elem_of_reverse, elem_of_shifts. split.
  - intros (Hk & Heq & ->). do 2 (split; [done|]). split.
    + by eapply deqb_dleb.
    + intros t Ht. destruct (dltb (d t) (d k)) eqn:E; [|done].
      rewrite <- (Hlow t); [|by apply elem_of_reverse, elem_of_shifts].
      symmetry. by eapply dltb_deqb.
  - intros (Hk & -> & Hle & Hmin). split; [done|]. split; [|done].
    assert (Hnk : deqb (d k) (d k) = true)
      by (by eapply dleb_not_nan_l).
    assert (Hnm : deqb m m = true) by (by eapply dleb_not_nan_l).
    destruct (double_trichotomy _ _ Hnk Hnm) as [Hlt|[Heq|Hgt]]; [|done|].
    + rewrite Hlow in Hlt; [done|by apply elem_of_reverse, elem_of_shifts].
    + destruct Hatt as [E|(j & Hj & E)].
      * rewrite E in Hgt. apply dleb_spec in Hle as [Hlt|Heq].
        -- pose proof (dltb_trans _ _ _ Hlt Hgt) as Habs.
           by rewrite dltb_irrefl in Habs.
        -- by rewrite E.
      * rewrite E in Hgt. rewrite Hmin in Hgt; [done|].
        by apply elem_of_shifts, elem_of_reverse.
Qed.
End MinScan.

Lemma FindMinDistShifts_keys (freqs : CharFrequencyArray) (k v : Z) :
  FindMinDistShifts freqs !! k = Some v ↔
    0 ≤ k < 128 ∧ v = 1
    ∧ dleb (dist freqs k) DBL_MAX = true
    ∧ ∀ t, 0 ≤ t < 128 → dltb (dist freqs t) (dist freqs k) = false.
Proof. exact (FindMinDistShifts_spec freqs (dist freqs) (λ _, eq_refl) k v). Qed.

(** ** The frequency attack when no byte was read *)

Lemma lookup_shifts (s : Z) : 0 ≤ s < 128 → shifts !! Z.to_nat s = Some s.
Proof.
  intros Hs. unfold shifts, kAsciiAlphabetSize.
  rewrite lookup_seqZ_lt by lia. f_equal. lia.
Qed.

Lemma row_normalize freqs n s :
  row (normalize freqs n) s = (λ val, ddiv val n) <$> row freqs s.
Proof.
  unfold row, normalize. rewrite list_lookup_fmap.
  by destruct (freqs !! Z.to_nat s).
Qed.

Lemma row_storage (uninit : Z → Z → double) s :
  0 ≤ s < 128 → row (freqs_storage uninit) s = uninit s <$> shifts.
Proof.
  intros Hs. unfold row, freqs_storage.
  by rewrite list_lookup_fmap, lookup_shifts.
Qed.

Lemma cell_fmap (f : double → double) (a : CharFrequencies) (i : Z) :
  is_Some (a !! Z.to_nat i) → cell (f <$> a) i = f (cell a i).
Proof.
  intros [x E]. unfold cell. by rewrite list_lookup_fmap, E.
Qed.

Lemma cell_storage (uninit : Z → Z → double) s i :
  0 ≤ i < 128 → cell (uninit s <$> shifts) i = uninit s i.
Proof.
  intros Hi. unfold cell. by rewrite list_lookup_fmap, lookup_shifts.
Qed.

(** Dividing by zero never gives a finite number. *)
Lemma ddiv_zero_unbounded (x : double) : unbounded (ddiv x d0) = true.
Proof. by destruct x as [[]|[]| |[] ? ?]. Qed.

Lemma abs_diff_unbounded (x r : double) :
  unbounded x = true → bounded_value r = true →
  nan_or_pinf (dabs (dsub x r)) = true.
Proof.
  destruct x as [[]|[]| |[] ? ?]; try discriminate;
    destruct r as [[]|[]| |[] ? ?]; try discriminate; reflexivity.
Qed.

Lemma dadd_nan_or_pinf (acc y : double) :
  acc = d0 ∨ nan_or_pinf acc = true → nan_or_pinf y = true →
  nan_or_pinf (dadd acc y) = true.
Proof.
  intros [->|Ha] Hy.
  - destruct y as [[]|[]| |[] ? ?]; try discriminate; reflexivity.
  - destruct acc as [[]|[]| |[] ? ?]; try discriminate;
      destruct y as [[]|[]| |[] ? ?]; try discriminate; reflexivity.
Qed.

Lemma nan_or_pinf_above (x : double) :
  nan_or_pinf x = true → dleb x DBL_MAX = false.
Proof. destruct x as [[]|[]| |[] ? ?]; try discriminate; reflexivity. Qed.

(** Every entry of the reference table is a zero or a finite number. *)
Lemma kAsciiFreqDistro_bounded (i : Z) :
  0 ≤ i < 128 → bounded_value (cell kAsciiFreqDistro i) = true.
Proof.
  intros Hi.
  assert (H : Forall (λ i, bounded_value (cell kAsciiFreqDistro i) = true) shifts).
  { vm_compute. repeat constructor. }
  rewrite Forall_forall in H. by apply H, elem_of_shifts.
Qed.

Lemma distance_fold_nan_or_pinf (observed : CharFrequencies) (l : list Z) :
  (∀ i, i ∈ l → 0 ≤ i < 128) →
  (∀ i, 0 ≤ i < 128 → unbounded (cell observed i) = true) →
  ∀ acc, acc = d0 ∧ l ≠ [] ∨ nan_or_pinf acc = true →
  nan_or_pinf
    (foldl (λ sum i, dadd sum (dabs (dsub (cell observed i) (cell kAsciiFreqDistro i))))
       acc l) = true.
Proof.
  intros Hl Hobs. induction l as [|i l IH]; intros acc Hacc.
  - by destruct Hacc as [[_ ?]|?].
  - cbn [foldl]. apply IH; [intros; apply Hl; by right|]. right.
    apply dadd_nan_or_pinf; [destruct Hacc as [[-> _]|?]; auto|].
    apply abs_diff_unbounded; [apply Hobs|apply kAsciiFreqDistro_bounded];
      apply Hl; left.
Qed.

Lemma ManhattanDist_unbounded (observed : CharFrequencies) :
  (∀ i, 0 ≤ i < 128 → unbounded (cell observed i) = true) →
  nan_or_pinf (ManhattanDist observed) = true.
Proof.
  intros Hobs. unfold ManhattanDist.
  apply distance_fold_nan_or_pinf; [by intros ? ?%elem_of_shifts|done|].
  left. split; [done|]. intros E. by apply (f_equal length) in E.
Qed.

(** Without a byte the scan leaves the storage as it found it and
    [num_chars] at zero. *)
Lemma freq_table_no_bytes (uninit : Z → Z → double) (ins : istream) :
  bytes_read ins = [] →
  freq_table uninit ins = Some (normalize (freqs_storage uninit) d0).
Proof.
  rewrite <- source_bytes_readable. unfold freq_table.
  by destruct (readable ins).
Qed.

(** Whatever the storage of [freqs] holds, a stream that delivers no byte
    (a failed stream, an empty one, one whose first read fails) makes every
    distance a NaN or [+infinity], and no candidate is recorded. *)
Lemma AsciiFrequencyAnalysisAttack_no_bytes (uninit : Z → Z → double) (ins : istream) :
  bytes_read ins = [] → AsciiFrequencyAnalysisAttack uninit ins = Some ∅.
Proof.
  intros Hno. unfold AsciiFrequencyAnalysisAttack.
  rewrite (freq_table_no_bytes uninit ins Hno). f_equal.
  apply map_eq. intros k. rewrite lookup_empty.
  destruct (FindMinDistShifts _ !! k) as [v|] eqn:E; [|done].
  apply FindMinDistShifts_keys in E as (Hk & _ & Hle & _).
  rewrite nan_or_pinf_above in Hle; [done|].
  unfold dist. apply ManhattanDist_unbounded. intros i Hi.
  rewrite row_normalize, row_storage by done.
  rewrite cell_fmap, cell_storage by
    (try done; rewrite list_lookup_fmap, lookup_shifts by done; eauto).
  apply ddiv_zero_unbounded.
Qed.

(** ** Scores are never stored as 0 *)








(** ** A key stored without a match, and without the minimal distance *)

(** C8.  A key is stored for a candidate that matched no word, and for a
    candidate that is not closest.  On the empty ciphertext and the
    dictionary that is one empty line the dictionary attack stores key 27
    with score 1: the candidate saw no byte, its score after the
    specification is 0, and the entry comes from the trailing loop finding
    the empty buffer in the word set.  On the ciphertext of one space, when
    the storage of [freqs] holds 1.0 in [freqs[0][0]], the frequency attack
    stores key 69 with score 1 though the histogram of candidate 0 is
    strictly closer to the reference distribution. *)
Theorem key_stored_without_match_or_minimum :
  let dict_is := stream_of ["010"%char] in
  let bytes := string_bytes " " in
  (λ m : KeyScoreMap, m !! 27) <$> AsciiDictionaryAttack (stream_of []) dict_is
    = Some (Some 1)
  ∧ shifted_codes 27 [] = []
  ∧ spec_score (LoadDictionary dict_is) 27 [] = 0
  ∧ (λ m : KeyScoreMap, m !! 69)
      <$> AsciiFrequencyAnalysisAttack stale (stream_of bytes)
    = Some (Some 1)
  ∧ dltb (spec_distance 0 bytes) (spec_distance 69 bytes) = true.
Proof. split_and!; vm_compute; reflexivity. Qed.

(** ** The trailing loop looks up empty buffers *)

(** C2, at an empty ciphertext and a dictionary that is one empty line:
    the trailing loop finds the empty buffer of every candidate in the word
    set, and the map returned holds all 128 candidates with score 1.  The
    same happens on a ciphertext stream in a failed state. *)
Theorem empty_ciphertext_blank_line_dictionary :
  AsciiDictionaryAttack (stream_of []) (stream_of ["010"%char])
    = Some (list_to_map ((λ shift, (shift, 1)) <$> shifts))
  ∧ AsciiDictionaryAttack (bad_stream (source_of (string_bytes "at")))
      (stream_of ["010"%char])
    = Some (list_to_map ((λ shift, (shift, 1)) <$> shifts)).
Proof. split; vm_compute; reflexivity. Qed.

(** C6, at the ciphertext "at " and the dictionary of the lines "at" and
    the empty line: after the scan the buffer of candidate 0 is empty and
    its score is 1 (the word "at"); the trailing loop looks the empty buffer
    up, finds it, and the score returned is 2, where looking up only
    non-empty trailing buffers gives 1. *)
Theorem trailing_loop_scores_empty_buffer :
  let dict_is := stream_of (string_bytes "at

") in
  let bytes := string_bytes "at " in
  (λ st, (word_at (words st) 0, scores st !! 0))
      <$> dict_scan (LoadDictionary dict_is) (source_of bytes) dict_init
    = Some (EmptyString, Some 1)
  ∧ (λ m : KeyScoreMap, m !! 0) <$> AsciiDictionaryAttack (stream_of bytes) dict_is
    = Some (Some 2)
  ∧ spec_score (LoadDictionary dict_is) 0 bytes = 1.
Proof. split_and!; vm_compute; reflexivity. Qed.

(** ** A read that fails is the end of the input *)

Lemma source_bytes_of (l : list ascii) : source_bytes (source_of l) = l.
Proof. induction l as [|c l IH]; cbn [source_of source_bytes]; congruence. Qed.


Lemma dict_scan_bytes dictionary s :
  ∀ st, dict_scan dictionary s st
        = dict_scan dictionary (source_of (source_bytes s)) st.
Proof.
  induction s as [| |c rest IH]; intros st;
    cbn [source_bytes source_of dict_scan]; [done..|].
  destruct (for_each _ _ _); [apply IH|done].
Qed.

Lemma freq_scan_bytes s :
  ∀ st, freq_scan s st = freq_scan (source_of (source_bytes s)) st.
Proof.
  induction s as [| |c rest IH]; intros st;
    cbn [source_bytes source_of freq_scan]; [done..|].
  destruct (for_each _ _ _); [apply IH|done].
Qed.

Lemma AsciiDictionaryAttack_bytes (ins dict_is : istream) :
  AsciiDictionaryAttack ins dict_is
  = AsciiDictionaryAttack (stream_of (bytes_read ins)) dict_is.
Proof.
  unfold AsciiDictionaryAttack.
  change (readable (stream_of (bytes_read ins))) with (source_of (bytes_read ins)).
  by rewrite <- source_bytes_readable, <- dict_scan_bytes.
Qed.

Lemma AsciiFrequencyAnalysisAttack_bytes (uninit : Z → Z → double) (ins : istream) :
  AsciiFrequencyAnalysisAttack uninit ins
  = AsciiFrequencyAnalysisAttack uninit (stream_of (bytes_read ins)).
Proof.
  unfold AsciiFrequencyAnalysisAttack, freq_table.
  change (readable (stream_of (bytes_read ins))) with (source_of (bytes_read ins)).
  by rewrite <- source_bytes_readable, <- freq_scan_bytes.
Qed.

(** C3 as stated fails: a stream that delivers the byte "a" and then a
    read error, attacked with the one-word dictionary "zzz", gives the
    empty map although a byte was read. *)
Lemma empty_scores_after_partial_read :
  let ins := {| failed := false; data := faulty_source_of (string_bytes "a") |} in
  let dict_is := stream_of (string_bytes "zzz") in
  ¬ (AsciiDictionaryAttack ins dict_is = Some ∅ ↔ bytes_read ins = []).
Proof.
  intros ins dict_is [H _].
  assert (E : AsciiDictionaryAttack ins dict_is = Some ∅) by (vm_compute; reflexivity).
  specialize (H E). discriminate H.
Qed.

(** C3, amended.  A read that fails mid-stream ends the input: each attack
    returns what it returns on a complete stream of the bytes read before
    the failure.  The frequency attack returns the empty map when no byte
    was read.  The map of the dictionary attack (on ASCII bytes) is empty
    exactly when no candidate shift has a successful dictionary lookup,
    however many bytes were read. *)
Theorem partial_read_is_scored (ins dict_is : istream) (uninit : Z → Z → double) :
  AsciiDictionaryAttack ins dict_is
    = AsciiDictionaryAttack (stream_of (bytes_read ins)) dict_is
  ∧ AsciiFrequencyAnalysisAttack uninit ins
    = AsciiFrequencyAnalysisAttack uninit (stream_of (bytes_read ins))
  ∧ (bytes_read ins = [] → AsciiFrequencyAnalysisAttack uninit ins = Some ∅)
  ∧ (Forall (λ c, is_ascii c = true) (bytes_read ins) →
     ∃ m, AsciiDictionaryAttack ins dict_is = Some m
       ∧ (m = ∅ ↔ ∀ s, 0 ≤ s < 128 →
            lookup_hits (LoadDictionary dict_is) s (bytes_read ins) = 0)).
Proof.
  split; [apply AsciiDictionaryAttack_bytes|].
  split; [apply AsciiFrequencyAnalysisAttack_bytes|].
  split; [apply AsciiFrequencyAnalysisAttack_no_bytes|].
  intros Hall.
  destruct (AsciiDictionaryAttack_scores ins dict_is Hall) as (m & E & Hsp & Hm).
  exists m. split; [done|]. rewrite (sparse_empty_iff m Hsp).
  split; intros H s Hs.
  - apply stored_None. rewrite <- (Hm s Hs). by apply H.
  - rewrite (Hm s Hs). apply stored_None. by apply H.
Qed.

Lemma partial_read_is_scored_witness :
  AsciiFrequencyAnalysisAttack zeroed (bad_stream (source_of (string_bytes "at")))
    = Some ∅
  ∧ ∃ m, AsciiDictionaryAttack
           {| failed := false; data := faulty_source_of (string_bytes "at d") |}
           (stream_of (string_bytes "at")) = Some m
      ∧ (m = ∅ ↔ ∀ s, 0 ≤ s < 128 →
           lookup_hits (LoadDictionary (stream_of (string_bytes "at"))) s
             (string_bytes "at d") = 0).
Proof.
  split.
  - apply (proj1 (proj2 (proj2 (partial_read_is_scored
             (bad_stream (source_of (string_bytes "at"))) (stream_of []) zeroed)))).
    reflexivity.
  - apply (proj2 (proj2 (proj2 (partial_read_is_scored
             {| failed := false; data := faulty_source_of (string_bytes "at d") |}
             (stream_of (string_bytes "at")) zeroed)))).
    repeat constructor.
Defined.

(** ** The frequency attack, candidate by candidate *)

Lemma row_alter (f : CharFrequencies → CharFrequencies)
    (freqs : CharFrequencyArray) (s t : Z) :
  length freqs = 128%nat → 0 ≤ s < 128 → 0 ≤ t < 128 →
  row (alter f (Z.to_nat s) freqs) t
  = if decide (t = s) then f (row freqs s) else row freqs t.
Proof.
  intros Hlen Hs Ht. unfold row. case_decide as E.
  - subst t. rewrite list_lookup_alter_eq.
    destruct (lookup_lt_is_Some_2 freqs (Z.to_nat s)) as [x ->]; [lia|done].
  - rewrite list_lookup_alter_ne by lia. done.
Qed.

Lemma freq_body_spec c s freqs :
  is_ascii c = true → 0 ≤ s < 128 →
  freq_body c s freqs
  = Some (alter (λ h, hist_step s h c) (Z.to_nat s) freqs).
Proof.
  intros Hc Hs. destruct (shifted_ascii c s Hc Hs) as [E R].
  unfold freq_body, tally. rewrite E.
  replace (_ && _) with true
    by (symmetry; apply andb_true_iff; split; [apply Z.leb_le|apply Z.ltb_lt];
        unfold kAsciiAlphabetSize; lia).
  done.
Qed.

Lemma freq_row_spec c l :
  is_ascii c = true → NoDup l → (∀ s, s ∈ l → 0 ≤ s < 128) →
  ∀ freqs, length freqs = 128%nat →
  ∃ freqs', for_each (freq_body c) l freqs = Some freqs'
    ∧ length freqs' = 128%nat
    ∧ ∀ t, 0 ≤ t < 128 →
        row freqs' t
        = if bool_decide (t ∈ l) then hist_step t (row freqs t) c else row freqs t.
Proof.
  intros Hc. induction l as [|s l IH]; intros Hnd Hin freqs Hlen.
  - exists freqs. by split_and!.
  - apply NoDup_cons in Hnd as [Hs Hnd].
    assert (Hr : 0 ≤ s < 128) by (apply Hin; left).
    destruct (IH Hnd) with (freqs := alter (λ h, hist_step s h c) (Z.to_nat s) freqs)
      as (freqs2 & E2 & Hlen2 & H2);
      [intros; apply Hin; by right|by rewrite length_alter|].
    exists freqs2. cbn [for_each]. rewrite (freq_body_spec c s freqs Hc Hr).
    split; [done|]. split; [done|].
    intros t Ht. rewrite (H2 t Ht), (row_alter _ freqs s t Hlen Hr Ht).
    destruct (decide (t = s)) as [->|Hne].
    + rewrite (bool_decide_eq_false_2 (s ∈ l)) by done.
      by rewrite (bool_decide_eq_true_2 (s ∈ s :: l)) by left.
    + assert (bool_decide (t ∈ s :: l) = bool_decide (t ∈ l)) as ->; [|done].
      apply bool_decide_ext. rewrite elem_of_cons. tauto.
Qed.

Lemma freq_scan_spec s :
  Forall (λ c, is_ascii c = true) (source_bytes s) →
  ∀ freqs n, length freqs = 128%nat →
  ∃ freqs', freq_scan s (freqs, n)
            = Some (freqs', foldl (λ n _, dadd n d1) n (source_bytes s))
    ∧ length freqs' = 128%nat
    ∧ ∀ t, 0 ≤ t < 128 →
        row freqs' t = hist_from (row freqs t) t (source_bytes s).
Proof.
  induction s as [| |c rest IH]; cbn [freq_scan source_bytes];
    intros Hall freqs n Hlen; [by exists freqs..|].
  apply Forall_cons in Hall as [Hc Hall]. cbn [fst snd].
  destruct (freq_row_spec c shifts Hc NoDup_shifts) with (freqs := freqs)
    as (freqs1 & E1 & Hlen1 & H1); [by intros ? ?%elem_of_shifts|done|].
  destruct (IH Hall freqs1 (dadd n d1) Hlen1) as (freqs2 & E2 & Hlen2 & H2).
  exists freqs2. rewrite E1. split; [done|]. split; [done|].
  intros t Ht. rewrite (H2 t Ht), (H1 t Ht).
  by rewrite bool_decide_eq_true_2 by (by apply elem_of_shifts).
Qed.

Lemma length_freqs_storage (uninit : Z → Z → double) :
  length (freqs_storage uninit) = 128%nat.
Proof. unfold freqs_storage. by rewrite length_fmap. Qed.

(** The array that [FindMinDistShifts] receives on an ASCII stream: the
    row of each candidate is its histogram on top of the initial contents of
    the storage, divided by the byte count. *)
Lemma freq_table_rows (uninit : Z → Z → double) (ins : istream) :
  Forall (λ c, is_ascii c = true) (bytes_read ins) →
  ∃ freqs, freq_table uninit ins = Some freqs
    ∧ ∀ t, 0 ≤ t < 128 →
        row freqs t
        = (λ v, ddiv v (byte_count (bytes_read ins)))
            <$> hist_from (uninit t <$> shifts) t (bytes_read ins).
Proof.
  rewrite <- source_bytes_readable. intros Hall. unfold freq_table.
  destruct (freq_scan_spec (readable ins) Hall (freqs_storage uninit) d0
              (length_freqs_storage uninit)) as (freqs & -> & Hlen & Hrows).
  eexists. split; [done|]. intros t Ht.
  by rewrite row_normalize, (Hrows t Ht), row_storage.
Qed.

Lemma zeroed_row (t : Z) :
  zeroed t <$> shifts = replicate (Z.to_nat kAsciiAlphabetSize) d0.
Proof. reflexivity. Qed.

(** With storage that holds zeros the distances are those of the
    specification. *)
Lemma freq_table_zeroed (ins : istream) :
  Forall (λ c, is_ascii c = true) (bytes_read ins) →
  ∃ freqs, freq_table zeroed ins = Some freqs
    ∧ ∀ t, 0 ≤ t < 128 → dist freqs t = spec_distance t (bytes_read ins).
Proof.
  intros Hall. destruct (freq_table_rows zeroed ins Hall) as (freqs & E & Hrows).
  exists freqs. split; [done|]. intros t Ht.
  unfold dist, spec_distance, spec_distribution.
  by rewrite (Hrows t Ht), zeroed_row.
Qed.

(** On an ASCII stream and with storage that holds zeros, the frequency
    attack returns the candidates whose distance (of the specification) is
    a number at most [DBL_MAX] that no candidate undercuts, each with
    score 1. *)
Lemma AsciiFrequencyAnalysisAttack_zeroed (ins : istream) :
  Forall (λ c, is_ascii c = true) (bytes_read ins) →
  ∃ m, AsciiFrequencyAnalysisAttack zeroed ins = Some m
    ∧ ∀ k v, m !! k = Some v ↔
        0 ≤ k < 128 ∧ v = 1
        ∧ dleb (spec_distance k (bytes_read ins)) DBL_MAX = true
        ∧ ∀ t, 0 ≤ t < 128 →
            dltb (spec_distance t (bytes_read ins))
                 (spec_distance k (bytes_read ins)) = false.
Proof.
  intros Hall. destruct (freq_table_zeroed ins Hall) as (freqs & E & Hd).
  unfold AsciiFrequencyAnalysisAttack. rewrite E. eexists. split; [done|].
  intros k v. rewrite FindMinDistShifts_keys. split.
  - intros (Hk & -> & Hle & Hmin). rewrite <- (Hd k Hk).
    do 3 (split; [done|]). intros t Ht. rewrite <- (Hd t Ht). by apply Hmin.
  - intros (Hk & -> & Hle & Hmin). rewrite (Hd k Hk).
    do 3 (split; [done|]). intros t Ht. rewrite (Hd t Ht). by apply Hmin.
Qed.

(** ** The histograms are built on uninitialised storage *)

(** C4, at the ciphertext of one space.  The histogram of candidate 0 is
    the one closest to the reference distribution: its distance is at most
    that of every candidate and strictly below that of candidate 69.  When
    the storage of [freqs] holds 1.0 in [freqs[0][0]] and zeros elsewhere
    the attack returns candidate 69 alone; when it holds zeros it returns
    candidate 0. *)
Theorem stale_storage_changes_minimum :
  let bytes := string_bytes " " in
  AsciiFrequencyAnalysisAttack stale (stream_of bytes) = Some {[ 69 := 1 ]}
  ∧ AsciiFrequencyAnalysisAttack zeroed (stream_of bytes) = Some {[ 0 := 1 ]}
  ∧ forallb (λ t, dleb (spec_distance 0 bytes) (spec_distance t bytes)) shifts = true
  ∧ dltb (spec_distance 0 bytes) (spec_distance 69 bytes) = true.
Proof. split_and!; vm_compute; reflexivity. Qed.

(** C9, at the ciphertext "e e": two runs on this one stream return
    different maps when the storage of [freqs] holds zeros in one and 1.0
    in [freqs[0][0]] in the other. *)
Theorem frequency_attack_depends_on_storage :
  let ins := stream_of (string_bytes "e e") in
  AsciiFrequencyAnalysisAttack zeroed ins = Some {[ 0 := 1 ]}
  ∧ AsciiFrequencyAnalysisAttack stale ins = Some {[ 59 := 1 ]}.
Proof. split; vm_compute; reflexivity. Qed.

(** ** The cipher and the candidate that undoes it *)

Lemma cipher_loop_app (k : Z) (s : source) :
  ∀ out, cipher_loop k s out = out ++ (shift_char k <$> source_bytes s).
Proof.
  induction s as [| |c rest IH]; intros out; cbn [cipher_loop source_bytes fmap list_fmap];
    [by rewrite app_nil_r..|].
  rewrite IH, <- app_assoc. done.
Qed.

Lemma encrypt_fmap (k : Z) (p : list ascii) : encrypt k p = shift_char k <$> p.
Proof.
  unfold encrypt, AsciiCaesarCipher. cbn [failed stream_of os_failed snd written data].
  by rewrite cipher_loop_app, source_bytes_of.
Qed.









(** ** The words of the plaintext *)












(** * Further properties of the cipher *)

Lemma int_to_char_code (c : ascii) : int_to_char (Z.of_N (N_of_ascii c)) = c.
Proof.
  unfold int_to_char. pose proof (N_ascii_bounded c).
  rewrite Z.mod_small by lia. rewrite N2Z.id. apply ascii_N_embedding.
Qed.

Lemma char_to_int_code (c : ascii) :
  is_ascii c = true → char_to_int c = Z.of_N (N_of_ascii c).
Proof. unfold is_ascii, char_to_int. by intros ->. Qed.

(** Under a key that is not negative and leaves the sum in the range of
    [int], an ASCII byte becomes the ASCII byte of the residue. *)
Lemma shift_char_nonneg (k : Z) (c : ascii) :
  is_ascii c = true → 0 ≤ k ≤ INT_MAX - 127 →
  char_to_int (shift_char k c) = (char_to_int c + k) mod 128
  ∧ is_ascii (shift_char k c) = true.
Proof.
  intros Hc Hk. pose proof (char_to_int_ascii c Hc) as Hr.
  rewrite shift_char_in_range by (done || lia).
  unfold kAsciiAlphabetSize. rewrite Z.rem_mod_nonneg by lia.
  set (z := (char_to_int c + k) mod 128).
  assert (Hz : 0 ≤ z < 128) by (apply Z.mod_pos_bound; lia).
  assert (Hn : N_of_ascii (int_to_char z) = Z.to_N z).
  { unfold int_to_char. rewrite Z.mod_small by lia.
    apply N_ascii_embedding. lia. }
  unfold char_to_int, is_ascii. rewrite Hn, Z2N.id by lia.
  by rewrite (proj2 (Z.ltb_lt z 128)) by lia.
Qed.

Lemma shift_char_mod (k : Z) (c : ascii) :
  is_ascii c = true → 0 ≤ k ≤ INT_MAX - 127 →
  shift_char (k mod 128) c = shift_char k c.
Proof.
  intros Hc Hk. pose proof (char_to_int_ascii c Hc) as Hr.
  pose proof (Z.mod_pos_bound k 128 ltac:(lia)).
  rewrite !shift_char_in_range by (done || unfold INT_MAX in *; lia).
  unfold kAsciiAlphabetSize.
  rewrite !Z.rem_mod_nonneg by lia. f_equal. apply Zplus_mod_idemp_r.
Qed.

(** Two keys in a row: the second sum starts from a residue, so it is the
    residue of the sum of the keys that counts, also when that sum is no
    [int]. *)
Lemma shift_char_shift_char (k1 k2 : Z) (c : ascii) :
  is_ascii c = true → 0 ≤ k1 ≤ INT_MAX - 127 → 0 ≤ k2 ≤ INT_MAX - 127 →
  shift_char k2 (shift_char k1 c) = shift_char ((k1 + k2) mod 128) c.
Proof.
  intros Hc H1 H2. destruct (shift_char_nonneg k1 c Hc H1) as [E A].
  pose proof (char_to_int_ascii c Hc) as Hr.
  pose proof (Z.mod_pos_bound (char_to_int c + k1) 128 ltac:(lia)).
  pose proof (Z.mod_pos_bound (k1 + k2) 128 ltac:(lia)).
  rewrite (shift_char_in_range k2 _ A) by lia.
  rewrite (shift_char_in_range ((k1 + k2) mod 128) c Hc)
    by (unfold INT_MAX in *; lia).
  unfold kAsciiAlphabetSize. rewrite E.
  rewrite !Z.rem_mod_nonneg by lia.
  f_equal. rewrite Zplus_mod_idemp_l, Zplus_mod_idemp_r. f_equal. lia.
Qed.

Lemma shift_char_zero (c : ascii) : is_ascii c = true → shift_char 0 c = c.
Proof.
  intros Hc. pose proof (char_to_int_ascii c Hc) as Hr.
  rewrite shift_char_in_range by (done || unfold INT_MAX; lia).
  unfold kAsciiAlphabetSize.
  rewrite Z.rem_mod_nonneg, Z.add_0_r, Z.mod_small by lia.
  rewrite (char_to_int_code c Hc). apply int_to_char_code.
Qed.

Lemma encrypt_encrypt (p : list ascii) (k1 k2 : Z) :
  Forall (λ c, is_ascii c = true) p →
  0 ≤ k1 ≤ INT_MAX - 127 → 0 ≤ k2 ≤ INT_MAX - 127 →
  encrypt k2 (encrypt k1 p) = encrypt ((k1 + k2) mod 128) p.
Proof.
  intros Hall H1 H2. rewrite !encrypt_fmap, <- list_fmap_compose.
  apply Forall_fmap_ext_1. eapply Forall_impl; [done|]. intros c Hc.
  by apply shift_char_shift_char.
Qed.

Lemma encrypt_mod (p : list ascii) (k : Z) :
  Forall (λ c, is_ascii c = true) p → 0 ≤ k ≤ INT_MAX - 127 →
  encrypt (k mod 128) p = encrypt k p.
Proof.
  intros Hall Hk. rewrite !encrypt_fmap. apply Forall_fmap_ext_1.
  eapply Forall_impl; [done|]. intros c Hc. by apply shift_char_mod.
Qed.

(** X1.  On ASCII text, for keys that are not negative and whose sum is at
    most [INT_MAX - 127] (no sum [int(curr) + shift] passes [INT_MAX]),
    encrypting twice is encrypting once with the sum of the keys, and a key
    counts modulo 128. *)
Theorem encrypt_compose (p : list ascii) (k1 k2 : Z) :
  Forall (λ c, is_ascii c = true) p →
  0 ≤ k1 → 0 ≤ k2 → k1 + k2 ≤ INT_MAX - 127 →
  encrypt k2 (encrypt k1 p) = encrypt (k1 + k2) p
  ∧ encrypt (k1 mod 128) p = encrypt k1 p.
Proof.
  intros Hall H1 H2 H12. split.
  - rewrite encrypt_encrypt by (done || lia). apply encrypt_mod; [done|lia].
  - apply encrypt_mod; [done|lia].
Qed.

Lemma encrypt_compose_witness :
  encrypt 100 (encrypt 30 (string_bytes "dawn")) = encrypt 130 (string_bytes "dawn")
  ∧ encrypt (30 mod 128) (string_bytes "dawn") = encrypt 30 (string_bytes "dawn").
Proof.
  apply (encrypt_compose (string_bytes "dawn") 30 100);
    [repeat constructor|lia|lia|unfold INT_MAX; lia].
Defined.

(** X2.  On ASCII text the key that undoes a key [k] with
    [0 <= k <= INT_MAX - 127] is [(128 - k mod 128) mod 128]: encrypting
    with it after encrypting with [k] gives the plaintext back. *)
Theorem encrypt_round_trip (p : list ascii) (k : Z) :
  Forall (λ c, is_ascii c = true) p → 0 ≤ k ≤ INT_MAX - 127 →
  encrypt ((128 - k mod 128) mod 128) (encrypt k p) = p.
Proof.
  intros Hall Hk.
  pose proof (Z.mod_pos_bound k 128 ltac:(lia)) as Hm.
  pose proof (Z.mod_pos_bound (128 - k mod 128) 128 ltac:(lia)) as Hm'.
  rewrite (encrypt_encrypt p k ((128 - k mod 128) mod 128) Hall Hk)
    by (unfold INT_MAX; lia).
  rewrite encrypt_fmap. rewrite <- (list_fmap_id p) at 2.
  apply Forall_fmap_ext_1. eapply Forall_impl; [done|]. intros c Hc.
  replace ((k + (128 - k mod 128) mod 128) mod 128) with 0;
    [by apply shift_char_zero|].
  rewrite Zplus_mod_idemp_r.
  replace (k + (128 - k mod 128)) with (128 + (k - k mod 128)) by lia.
  rewrite (Z.div_mod k 128) at 1 by lia.
  replace (128 + (128 * (k / 128) + k mod 128 - k mod 128))
    with ((1 + k / 128) * 128) by lia.
  symmetry. apply Z.mod_mul. lia.
Qed.

Lemma encrypt_round_trip_witness :
  encrypt ((128 - 101 mod 128) mod 128) (encrypt 101 (string_bytes "at dawn"))
  = string_bytes "at dawn".
Proof.
  apply (encrypt_round_trip (string_bytes "at dawn") 101);
    [repeat constructor|unfold INT_MAX; lia].
Defined.

Lemma fmap_fixes {A : Type} (f : A → A) (l : list A) :
  f <$> l = l ↔ Forall (λ x, f x = x) l.
Proof.
  induction l as [|x l IH]; cbn [fmap list_fmap]; [by split; [constructor|]|].
  rewrite Forall_cons, <- IH. split; [by intros [= -> ->]|by intros [-> ->]].
Qed.

Lemma shift_char_negative (j : Z) (c : ascii) :
  is_ascii c = true → 1 ≤ j ≤ 127 →
  shift_char (- j) (shift_char j c) = unshifted j c.
Proof.
  intros Hc Hj. pose proof (char_to_int_ascii c Hc) as Hr.
  destruct (shift_char_nonneg j c Hc) as [E A]; [unfold INT_MAX; lia|].
  pose proof (Z.mod_pos_bound (char_to_int c + j) 128 ltac:(lia)).
  rewrite (shift_char_in_range (- j) _ A) by (unfold INT_MAX; lia).
  rewrite E. unfold kAsciiAlphabetSize, unshifted.
  destruct (Z.ltb_spec (char_to_int c + j) 128) as [Hlt|Hge].
  - rewrite (Z.mod_small (char_to_int c + j)) by lia.
    replace (char_to_int c + j + - j) with (char_to_int c) by lia.
    rewrite Z.rem_small by lia.
    rewrite (char_to_int_code c Hc). apply int_to_char_code.
  - replace ((char_to_int c + j) mod 128) with (char_to_int c + j - 128).
    2:{ apply Z.mod_unique with (q := 1); lia. }
    replace (char_to_int c + j - 128 + - j) with (- (128 - char_to_int c)) by lia.
    rewrite Z.rem_opp_l, Z.rem_small by lia.
    unfold int_to_char.
    replace (- (128 - char_to_int c)) with (char_to_int c + 128 + (-1) * 256) by lia.
    rewrite Z.mod_add, Z.mod_small by lia.
    rewrite (char_to_int_code c Hc). f_equal. lia.
Qed.

Lemma unshifted_fixes (j : Z) (c : ascii) :
  is_ascii c = true → unshifted j c = c ↔ char_to_int c + j < 128.
Proof.
  intros Hc. apply Z.ltb_lt in Hc.
  unfold unshifted. destruct (Z.ltb_spec (char_to_int c + j) 128) as [Hlt|Hge];
    [done|]. split; [|lia]. intros Heq. exfalso.
  apply (f_equal N_of_ascii) in Heq.
  rewrite N_ascii_embedding in Heq by lia. lia.
Qed.

(** X3.  A negative key does not undo the cipher.  After encryption of
    ASCII text with a key [j] in [1, 127], the key [-j] gives back each byte
    whose code plus [j] stayed below 128 and writes every other byte with
    its code increased by 128; so the plaintext comes back exactly when no
    byte wrapped around. *)
Theorem negative_key_undoes_only_unwrapped (p : list ascii) (j : Z) :
  Forall (λ c, is_ascii c = true) p → 1 ≤ j ≤ 127 →
  encrypt (- j) (encrypt j p)
    = (λ c, if char_to_int c + j <? 128 then c
            else ascii_of_N (N_of_ascii c + 128)) <$> p
  ∧ (encrypt (- j) (encrypt j p) = p
     ↔ Forall (λ c, char_to_int c + j < 128) p).
Proof.
  intros Hall Hj.
  assert (E : encrypt (- j) (encrypt j p) = unshifted j <$> p).
  { rewrite !encrypt_fmap, <- list_fmap_compose. apply Forall_fmap_ext_1.
    eapply Forall_impl; [done|]. intros c Hc. by apply shift_char_negative. }
  split; [exact E|]. rewrite E, fmap_fixes.
  rewrite Forall_forall in Hall. rewrite !Forall_forall.
  split; intros H c Hc; by apply (unshifted_fixes j c (Hall c Hc)), H.
Qed.

Lemma negative_key_undoes_only_unwrapped_witness :
  encrypt (- 27) (encrypt 27 (string_bytes "AT")) = string_bytes "AT"
  ∧ N_of_ascii <$> encrypt (- 27) (encrypt 27 (string_bytes "we"))
    = [(119 + 128)%N; (101 + 128)%N]
  ∧ encrypt (- 27) (encrypt 27 (string_bytes "we")) ≠ string_bytes "we".
Proof.
  assert (Hwe : Forall (λ c, is_ascii c = true) (string_bytes "we"))
    by (repeat constructor).
  assert (Hat : Forall (λ c, is_ascii c = true) (string_bytes "AT"))
    by (repeat constructor).
  assert (Hj : 1 ≤ 27 ≤ 127) by lia.
  split_and!.
  - apply (proj2 (negative_key_undoes_only_unwrapped (string_bytes "AT") 27 Hat Hj)).
    repeat constructor; done.
  - exact (eq_trans
             (f_equal (fmap N_of_ascii)
                (proj1 (negative_key_undoes_only_unwrapped (string_bytes "we") 27 Hwe Hj)))
             eq_refl).
  - intros H.
    apply (proj2 (negative_key_undoes_only_unwrapped (string_bytes "we") 27 Hwe Hj)) in H.
    apply Forall_cons in H as [H _]. vm_compute in H. discriminate H.
Defined.

(** X4.  What [AsciiCaesarCipher] returns.  A failed input stream is
    reported first and a failed output stream second, and then nothing is
    written.  Otherwise the result is [kSuccess], also when a read fails in
    the middle of the stream, and the output is what the stream held
    followed by one shifted byte for each byte read. *)
Theorem AsciiCaesarCipher_outcome (ins : istream) (os : ostream) (shift : Z) :
  (failed ins = true →
     AsciiCaesarCipher ins os shift = (kBadInputStream, os))
  ∧ (failed ins = false → os_failed os = true →
     AsciiCaesarCipher ins os shift = (kBadOutputStream, os))
  ∧ (failed ins = false → os_failed os = false →
     fst (AsciiCaesarCipher ins os shift) = kSuccess
     ∧ written (snd (AsciiCaesarCipher ins os shift))
       = written os ++ (shift_char shift <$> bytes_read ins)
     ∧ length (written (snd (AsciiCaesarCipher ins os shift)))
       = (length (written os) + length (bytes_read ins))%nat).
Proof.
  unfold AsciiCaesarCipher, bytes_read. split_and!.
  - by intros ->.
  - by intros -> ->.
  - intros -> ->. cbn [fst snd written]. rewrite cipher_loop_app.
    split; [done|]. split; [done|]. by rewrite length_app, length_fmap.
Qed.

Lemma AsciiCaesarCipher_outcome_witness :
  AsciiCaesarCipher (bad_stream (source_of (string_bytes "at")))
    {| os_failed := true; written := [] |} 5
  = (kBadInputStream, {| os_failed := true; written := [] |})
  ∧ fst (AsciiCaesarCipher
           {| failed := false; data := faulty_source_of (string_bytes "at") |}
           {| os_failed := false; written := string_bytes "x" |} 1) = kSuccess.
Proof.
  split.
  - apply (proj1 (AsciiCaesarCipher_outcome
             (bad_stream (source_of (string_bytes "at")))
             {| os_failed := true; written := [] |} 5)). reflexivity.
  - apply (proj2 (proj2 (AsciiCaesarCipher_outcome
             {| failed := false; data := faulty_source_of (string_bytes "at") |}
             {| os_failed := false; written := string_bytes "x" |} 1)));
      reflexivity.
Defined.

(** X20.  Past [INT_MAX - 127] a key no longer counts modulo 128.  Under
    the key [INT_MAX] the sum for the byte 'a' (code 97) wraps around to a
    negative [int], whose remainder is -32, and the byte written is 224,
    which is not ASCII; the key [INT_MAX mod 128], which is 127, writes the
    byte 96. *)
Theorem key_past_INT_MAX_wraps :
  int_add 97 INT_MAX = -2147483552
  ∧ N_of_ascii <$> encrypt INT_MAX (string_bytes "a") = [224%N]
  ∧ N_of_ascii <$> encrypt (INT_MAX mod 128) (string_bytes "a") = [96%N].
Proof. split_and!; vm_compute; reflexivity. Qed.

(** * Further properties of the cracker *)

(** ** Loading the dictionary *)

Lemma string_app_cons (c : ascii) (w w' : string) :
  String c w +:+ w' = String c (w +:+ w').
Proof. reflexivity. Qed.

Lemma string_app_empty (w : string) : w +:+ EmptyString = w.
Proof.
  induction w as [|c w IH]; [done|]. by rewrite string_app_cons, IH.
Qed.

Lemma string_app_char (line : string) (c : ascii) (w : string) :
  (line +:+ String c EmptyString) +:+ w = line +:+ String c w.
Proof.
  induction line as [|a line IH]; [done|]. by rewrite !string_app_cons, IH.
Qed.

Lemma source_app_app (l1 l2 : list ascii) (s : source) :
  source_app (l1 ++ l2) s = source_app l1 (source_app l2 s).
Proof. induction l1 as [|c l1 IH]; simpl; congruence. Qed.

Lemma source_of_app (l : list ascii) : source_of l = source_app l src_eof.
Proof. induction l as [|c l IH]; simpl; congruence. Qed.

Lemma faulty_source_of_app (l : list ascii) :
  faulty_source_of l = source_app l src_fault.
Proof. induction l as [|c l IH]; simpl; congruence. Qed.

(** Reading the rest of a line. *)
Lemma getline_loop_word (w : string) (s : source) :
  no_newline w →
  ∀ line dictionary,
    getline_loop (source_app (string_bytes w) s) line dictionary
    = getline_loop s (line +:+ w) dictionary.
Proof.
  unfold no_newline, string_bytes.
  induction w as [|c w IH]; intros Hw line dictionary;
    cbn [list_ascii_of_string source_app getline_loop].
  - by rewrite string_app_empty.
  - apply not_elem_of_cons in Hw as [Hc Hw].
    rewrite (proj2 (Ascii.eqb_neq c "010"%char)) by (intros ->; by apply Hc).
    by rewrite IH, string_app_char.
Qed.

Lemma getline_loop_lines (lines : list string) (s : source) :
  Forall no_newline lines →
  ∀ dictionary,
    getline_loop (source_app (unlines lines) s) EmptyString dictionary
    = getline_loop s EmptyString (list_to_set lines ∪ dictionary).
Proof.
  unfold unlines. induction 1 as [|w lines Hw Hall IH]; intros dictionary.
  - cbn. f_equal. set_solver.
  - cbn [fmap list_fmap concat]. rewrite <- app_assoc, !source_app_app.
    rewrite getline_loop_word by done.
    cbn [source_app getline_loop app]. rewrite Ascii.eqb_refl.
    rewrite IH. change (EmptyString +:+ w) with w. f_equal. set_solver.
Qed.

(** X6.  A word list whose lines end in newlines loads exactly its lines; a
    last line without newline is loaded too when it is not empty; and when
    the read fails inside the last line, that part is dropped while the
    complete lines stay. *)
Theorem LoadDictionary_lines (lines : list string) (last : string) :
  Forall no_newline lines → no_newline last →
  LoadDictionary (stream_of (unlines lines ++ string_bytes last))
    = list_to_set lines ∪ (if is_empty last then ∅ else {[ last ]})
  ∧ LoadDictionary {| failed := false;
                      data := faulty_source_of (unlines lines ++ string_bytes last) |}
    = list_to_set lines.
Proof.
  intros Hall Hlast. unfold LoadDictionary, readable, stream_of.
  cbn [failed data]. rewrite source_of_app, faulty_source_of_app, !source_app_app.
  rewrite !getline_loop_lines, !getline_loop_word by done.
  cbn [getline_loop]. change (EmptyString +:+ last) with last.
  unfold is_empty. destruct (String.eqb last EmptyString); split; set_solver.
Qed.

Lemma LoadDictionary_lines_witness :
  LoadDictionary (stream_of (unlines ["at"%string; "dawn"%string]
                             ++ string_bytes "attack"))
    = list_to_set ["at"%string; "dawn"%string] ∪ {[ "attack"%string ]}
  ∧ LoadDictionary {| failed := false;
                      data := faulty_source_of
                                (unlines ["at"%string; "dawn"%string]
                                 ++ string_bytes "attack") |}
    = list_to_set ["at"%string; "dawn"%string].
Proof.
  apply (LoadDictionary_lines ["at"%string; "dawn"%string] "attack");
    [repeat constructor; unfold no_newline; cbn; set_solver
    |unfold no_newline; cbn; set_solver].
Defined.

(** ** The dictionary attack and its dictionary *)

(** Two maps of the dictionary attack that agree on the candidates are
    equal. *)
Lemma sparse_map_eq (m1 m2 : KeyScoreMap) :
  sparse m1 → sparse m2 → (∀ t, 0 ≤ t < 128 → m1 !! t = m2 !! t) → m1 = m2.
Proof.
  intros H1 H2 H. apply map_eq. intros k.
  destruct (decide (0 ≤ k < 128)); [by apply H|].
  by rewrite !sparse_outside.
Qed.

Lemma code_int_to_char (z : Z) : 0 ≤ z < 256 → code (int_to_char z) = z.
Proof.
  intros Hz. unfold code, int_to_char. rewrite Z.mod_small by lia.
  rewrite N_ascii_embedding by lia. lia.
Qed.

Lemma tolower_lower_alnum (z : Z) :
  isalnum z = true →
  isdigit (code (int_to_char (tolower z)))
  || islower (code (int_to_char (tolower z))) = true.
Proof.
  unfold isalnum, tolower, isdigit, isupper, islower. intros H.
  destruct ((65 <=? z) && (z <=? 90)) eqn:Eu.
  - apply andb_true_iff in Eu as [?%Z.leb_le ?%Z.leb_le].
    rewrite code_int_to_char by lia. apply orb_true_iff. right.
    apply andb_true_iff. split; apply Z.leb_le; lia.
  - rewrite orb_false_r in H.
    assert (0 ≤ z < 256).
    { apply orb_true_iff in H as [H|H];
        apply andb_true_iff in H as [?%Z.leb_le ?%Z.leb_le]; lia. }
    rewrite code_int_to_char by lia.
    apply orb_true_iff in H as [H|H]; rewrite H; [done|apply orb_true_r].
Qed.

Lemma lower_alnum_snoc (w : string) (c : ascii) :
  lower_alnum w → isdigit (code c) || islower (code c) = true →
  lower_alnum (w +:+ String c EmptyString).
Proof.
  unfold lower_alnum, string_bytes. intros Hw Hc.
  induction w as [|a w IH]; [by repeat constructor|].
  rewrite string_app_cons. cbn [list_ascii_of_string] in *.
  apply Forall_cons in Hw as [Ha Hw]. constructor; [done|by apply IH].
Qed.

(** The buffer of a candidate holds digits and lowercase letters only. *)
Lemma spec_step_lower_alnum dictionary st z :
  lower_alnum (fst st) → lower_alnum (fst (spec_step dictionary st z)).
Proof.
  intros Hst. unfold spec_step. destruct (isalnum z) eqn:E.
  - cbn [fst]. apply lower_alnum_snoc; [done|by apply tolower_lower_alnum].
  - destruct (_ && _); [constructor|done].
Qed.

Section TwoDictionaries.
Variables dictionary1 dictionary2 : WordSet.

(** What a step does to the scans under two dictionaries, given how their
    lookups of the buffers compare ([R] on the scores is [=] or [≤]). *)
Lemma spec_fold_compare (R : Z → Z → Prop) :
  (∀ a b, R a b → R (a + 1) (b + 1)) →
  (∀ w a b, lower_alnum w → R a b →
     R (if count dictionary1 w then a + 1 else a)
       (if count dictionary2 w then b + 1 else b)) →
  ∀ codes st1 st2,
    fst st1 = fst st2 → lower_alnum (fst st1) → R (snd st1) (snd st2) →
    fst (foldl (spec_step dictionary1) st1 codes)
      = fst (foldl (spec_step dictionary2) st2 codes)
    ∧ lower_alnum (fst (foldl (spec_step dictionary1) st1 codes))
    ∧ R (snd (foldl (spec_step dictionary1) st1 codes))
        (snd (foldl (spec_step dictionary2) st2 codes)).
Proof.
  intros Hsucc Hcount. induction codes as [|z codes IH];
    intros st1 st2 Hb Hl HR; [done|].
  cbn [foldl]. apply IH.
  - unfold spec_step. rewrite Hb. destruct (isalnum z); [done|].
    by destruct (_ && _).
  - by apply spec_step_lower_alnum.
  - unfold spec_step. rewrite <- Hb. destruct (isalnum z); [done|].
    destruct (_ && _); [|done]. cbn [snd]. by apply Hcount.
Qed.

Lemma lookup_hits_compare (R : Z → Z → Prop) (s : Z) (bytes : list ascii) :
  R 0 0 →
  (∀ a b, R a b → R (a + 1) (b + 1)) →
  (∀ w a b, lower_alnum w → R a b →
     R (if count dictionary1 w then a + 1 else a)
       (if count dictionary2 w then b + 1 else b)) →
  R (lookup_hits dictionary1 s bytes) (lookup_hits dictionary2 s bytes).
Proof.
  intros H0 Hsucc Hcount. unfold lookup_hits, spec_scan.
  destruct (spec_fold_compare R Hsucc Hcount (shifted_codes s bytes)
              (EmptyString, 0) (EmptyString, 0)) as (Hb & Hl & HR);
    [done|constructor|done|].
  rewrite <- Hb. by apply Hcount.
Qed.
End TwoDictionaries.

(** X7.  Only the dictionary words made of digits and lowercase letters
    matter.  Two dictionary streams whose word sets hold the same such
    words give the same score map on every ASCII ciphertext; a word with
    an uppercase letter, a carriage return or a blank is never matched. *)
Theorem dictionary_lowercase_only (ins dict_is1 dict_is2 : istream) :
  Forall (λ c, is_ascii c = true) (bytes_read ins) →
  (∀ w, lower_alnum w →
     w ∈ LoadDictionary dict_is1 ↔ w ∈ LoadDictionary dict_is2) →
  AsciiDictionaryAttack ins dict_is1 = AsciiDictionaryAttack ins dict_is2.
Proof.
  intros Hall Hsame.
  destruct (AsciiDictionaryAttack_scores ins dict_is1 Hall) as (m1 & -> & Hs1 & H1).
  destruct (AsciiDictionaryAttack_scores ins dict_is2 Hall) as (m2 & -> & Hs2 & H2).
  f_equal. apply sparse_map_eq; [done..|]. intros t Ht.
  rewrite (H1 t Ht), (H2 t Ht). f_equal.
  apply (lookup_hits_compare _ _ eq); [done|by intros ? ? ->|].
  intros w a b Hw ->. unfold count.
  by rewrite (bool_decide_ext _ _ (Hsame w Hw)).
Qed.

Lemma dictionary_lowercase_only_witness :
  AsciiDictionaryAttack (stream_of (string_bytes "at dawn"))
    (stream_of (unlines ["at"%string; "Dawn"%string]))
  = AsciiDictionaryAttack (stream_of (string_bytes "at dawn"))
      (stream_of (unlines ["at"%string])).
Proof.
  apply (dictionary_lowercase_only (stream_of (string_bytes "at dawn"))
           (stream_of (unlines ["at"%string; "Dawn"%string]))
           (stream_of (unlines ["at"%string]))); [repeat constructor|].
  intros w Hw.
  assert (E1 : LoadDictionary (stream_of (unlines ["at"%string; "Dawn"%string]))
               = {[ "at"%string; "Dawn"%string ]}) by (vm_compute; reflexivity).
  assert (E2 : LoadDictionary (stream_of (unlines ["at"%string]))
               = {[ "at"%string ]}) by (vm_compute; reflexivity).
  rewrite E1, E2. rewrite elem_of_union, !elem_of_singleton.
  split; [|by left]. intros [->| ->]; [done|].
  apply Forall_cons in Hw as [Hw _]. vm_compute in Hw. discriminate Hw.
Defined.



(** ** Bounds and irrelevant bytes *)

Lemma spec_fold_spaces dictionary codes :
  ∀ st, snd (foldl (spec_step dictionary) st codes)
        ≤ snd st + Z.of_nat (length (filter (λ z, isspace z = true) codes)).
Proof.
  induction codes as [|z codes IH]; intros st; cbn [foldl]; [cbn; lia|].
  specialize (IH (spec_step dictionary st z)). rewrite filter_cons.
  assert (snd (spec_step dictionary st z)
          ≤ snd st + if isspace z then 1 else 0) as Hstep.
  { unfold spec_step.
    destruct (isalnum z), (negb (is_empty (fst st))), (isspace z),
      (count dictionary (fst st)); cbn [andb snd]; lia. }
  destruct (isspace z) eqn:E.
  - rewrite decide_True by done. cbn [length]. lia.
  - rewrite decide_False by done. lia.
Qed.

(** X9.  The score of a candidate is at most one more than the number of
    bytes that it sees as whitespace, hence at most one more than the
    number of bytes read. *)
Theorem score_bounded_by_whitespace (ins dict_is : istream) (m : KeyScoreMap)
    (k v : Z) :
  Forall (λ c, is_ascii c = true) (bytes_read ins) →
  AsciiDictionaryAttack ins dict_is = Some m → m !! k = Some v →
  v ≤ Z.of_nat (length (filter (λ z, isspace z = true)
                          (shifted_codes k (bytes_read ins)))) + 1
  ∧ v ≤ Z.of_nat (length (bytes_read ins)) + 1.
Proof.
  intros Hall E Hk.
  destruct (AsciiDictionaryAttack_scores ins dict_is Hall) as (m' & E' & Hs & H).
  rewrite E in E'. apply (inj Some) in E'. subst m'.
  destruct (Hs k v Hk) as [Hr _]. rewrite (H k Hr) in Hk.
  apply stored_Some in Hk as [<- _].
  assert (Hb : lookup_hits (LoadDictionary dict_is) k (bytes_read ins)
               ≤ Z.of_nat (length (filter (λ z, isspace z = true)
                                     (shifted_codes k (bytes_read ins)))) + 1).
  { unfold lookup_hits, spec_scan.
    pose proof (spec_fold_spaces (LoadDictionary dict_is)
                  (shifted_codes k (bytes_read ins)) (EmptyString, 0)) as Hf.
    cbn [snd] in Hf. destruct (count _ _); lia. }
  split; [done|].
  pose proof (length_filter (λ z, isspace z = true)
                (shifted_codes k (bytes_read ins))) as Hlen.
  unfold shifted_codes in Hlen at 2. rewrite length_fmap in Hlen. lia.
Qed.

Lemma score_bounded_by_whitespace_witness :
  3 ≤ Z.of_nat (length (filter (λ z, isspace z = true)
        (shifted_codes 101
           (bytes_read (stream_of (encrypt 27 (string_bytes "attack at dawn"))))))) + 1
  ∧ 3 ≤ Z.of_nat (length (bytes_read
        (stream_of (encrypt 27 (string_bytes "attack at dawn"))))) + 1.
Proof.
  apply (score_bounded_by_whitespace
           (stream_of (encrypt 27 (string_bytes "attack at dawn")))
           (stream_of (unlines ["attack"%string; "at"%string; "dawn"%string]))
           {[ 101 := 3 ]} 101 3);
    [repeat constructor|vm_compute; reflexivity|reflexivity].
Defined.

Lemma spec_fold_relevant dictionary codes :
  ∀ st, foldl (spec_step dictionary) st codes
        = foldl (spec_step dictionary) st (filter (λ z, relevant z = true) codes).
Proof.
  induction codes as [|z codes IH]; intros st; [done|].
  rewrite filter_cons. cbn [foldl]. destruct (relevant z) eqn:E.
  - rewrite decide_True by done. cbn [foldl]. apply IH.
  - rewrite decide_False by done. rewrite <- IH. f_equal.
    unfold relevant in E. apply orb_false_iff in E as [Ea Es].
    unfold spec_step. by rewrite Ea, Es, andb_false_r.
Qed.

(** X10.  Bytes that a candidate sees as neither alphanumeric nor whitespace
    (punctuation, control characters) do not influence its score: two ASCII
    ciphertexts that agree for a candidate once these bytes are removed
    give that candidate the same entry. *)
Theorem punctuation_is_skipped (ins1 ins2 dict_is : istream)
    (m1 m2 : KeyScoreMap) (k : Z) :
  Forall (λ c, is_ascii c = true) (bytes_read ins1) →
  Forall (λ c, is_ascii c = true) (bytes_read ins2) →
  0 ≤ k < 128 →
  filter (λ z, relevant z = true) (shifted_codes k (bytes_read ins1))
    = filter (λ z, relevant z = true) (shifted_codes k (bytes_read ins2)) →
  AsciiDictionaryAttack ins1 dict_is = Some m1 →
  AsciiDictionaryAttack ins2 dict_is = Some m2 →
  m1 !! k = m2 !! k.
Proof.
  intros Hall1 Hall2 Hk Hsame E1 E2.
  destruct (AsciiDictionaryAttack_scores ins1 dict_is Hall1) as (m1' & E1' & _ & H1).
  destruct (AsciiDictionaryAttack_scores ins2 dict_is Hall2) as (m2' & E2' & _ & H2).
  rewrite E1 in E1'. rewrite E2 in E2'.
  apply (inj Some) in E1', E2'. subst m1' m2'.
  rewrite (H1 k Hk), (H2 k Hk). unfold lookup_hits, spec_scan.
  rewrite (spec_fold_relevant _ (shifted_codes k (bytes_read ins1))).
  rewrite (spec_fold_relevant _ (shifted_codes k (bytes_read ins2))).
  by rewrite Hsame.
Qed.

Lemma punctuation_is_skipped_witness :
  ({[ 0 := 2; 96 := 2 ]} : KeyScoreMap) !! 0 = ({[ 0 := 2 ]} : KeyScoreMap) !! 0.
Proof.
  apply (punctuation_is_skipped
           (stream_of (string_bytes "at, dawn!"))
           (stream_of (string_bytes "at dawn"))
           (stream_of (unlines ["at"%string; "dawn"%string]))
           {[ 0 := 2; 96 := 2 ]} {[ 0 := 2 ]} 0).
  - repeat constructor.
  - repeat constructor.
  - lia.
  - vm_compute. reflexivity.
  - vm_compute. reflexivity.
  - vm_compute. reflexivity.
Defined.

(** ** The distance is never negative *)

Lemma binary_round_aux_not_negative (m e : Z) (l : location) :
  not_negative (binary_round_aux prec emax false m e l) = true.
Proof.
  unfold binary_round_aux.
  destruct (shr_fexp prec emax m e l) as [mrs' e'].
  destruct (shr_fexp prec emax _ e' loc_Exact) as [mrs'' e''].
  destruct (shr_m mrs''); [done| |done].
  by destruct (Z.leb _ _).
Qed.

Lemma dabs_not_negative (x : double) : not_negative (dabs x) = true.
Proof. by destruct x as [[]|[]| |[] ? ?]. Qed.

Lemma dadd_not_negative (x y : double) :
  not_negative x = true → not_negative y = true →
  not_negative (dadd x y) = true.
Proof.
  destruct x as [[]|[]| |[] mx ex]; try discriminate;
    destruct y as [[]|[]| |[] my ey]; try discriminate; try reflexivity.
  intros _ _. unfold dadd, SFadd, binary_normalize. cbn [cond_Zopp].
  set (a := fst (shl_align mx ex (Z.min ex ey))).
  set (b := fst (shl_align my ey (Z.min ex ey))).
  change (Z.pos a + Z.pos b) with (Z.pos (a + b)). cbv iota.
  unfold binary_round.
  destruct (shl_align (a + b) _ _) as [mz ez].
  apply binary_round_aux_not_negative.
Qed.

Lemma not_negative_not_below_zero (x : double) :
  not_negative x = true → dltb x d0 = false.
Proof. destruct x as [[]|[]| |[] ? ?]; try discriminate; reflexivity. Qed.

Lemma distance_fold_not_negative (observed : CharFrequencies) (l : list Z) :
  ∀ acc, not_negative acc = true →
  not_negative
    (foldl (λ sum i, dadd sum (dabs (dsub (cell observed i) (cell kAsciiFreqDistro i))))
       acc l) = true.
Proof.
  induction l as [|i l IH]; intros acc Hacc; [done|].
  cbn [foldl]. apply IH. apply dadd_not_negative; [done|apply dabs_not_negative].
Qed.

(** X12.  [ManhattanDist] never returns a negative number, whatever the
    array holds: the result is zero, a positive number, [+infinity] or a
    NaN, so it is never below zero. *)
Theorem ManhattanDist_not_negative (observed : CharFrequencies) :
  not_negative (ManhattanDist observed) = true
  ∧ dltb (ManhattanDist observed) d0 = false.
Proof.
  assert (H : not_negative (ManhattanDist observed) = true)
    by (by apply distance_fold_not_negative).
  split; [done|by apply not_negative_not_below_zero].
Qed.

(** ** What [FindMinDistShifts] returns *)

Section MinScanResult.
Variable freqs : CharFrequencyArray.
Variable d : Z → double.
Hypothesis d_dist : ∀ shift, ManhattanDist (row freqs shift) = d shift.

Lemma FindMinDistShifts_dom (k : Z) :
  k ∈ dom (FindMinDistShifts freqs) ↔
    0 ≤ k < 128
    ∧ dleb (d k) DBL_MAX = true
    ∧ ∀ t, 0 ≤ t < 128 → dltb (d t) (d k) = false.
Proof.
  rewrite elem_of_dom. split.
  - intros [v Hv]. apply (FindMinDistShifts_spec freqs d d_dist) in Hv. tauto.
  - intros (Hk & Hle & Hmin). exists 1.
    apply (FindMinDistShifts_spec freqs d d_dist). tauto.
Qed.

Lemma FindMinDistShifts_empty :
  FindMinDistShifts freqs = ∅ ↔ ∀ t, 0 ≤ t < 128 → dleb (d t) DBL_MAX = false.
Proof.
  split.
  - intros Hempty t Ht. destruct (dleb (d t) DBL_MAX) eqn:Hle; [|done].
    destruct (min_fold_inv freqs d d_dist shifts []
                (∅, DBL_MAX) NoDup_shifts) as (Hmax & Hatt & Hlow & Hkeys).
    { intros s _. apply not_elem_of_nil. }
    { split_and!; [done|by left|by intros ? ?%not_elem_of_nil|].
      intros k' v'. cbn [fst]. rewrite lookup_empty.
      split; [done|]. by intros [?%not_elem_of_nil _]. }
    rewrite app_nil_r in Hatt, Hlow, Hkeys.
    set (m := snd (foldl (min_body freqs) (∅, DBL_MAX) shifts)) in *.
    assert (Hnone : ∀ k, k ∈ reverse shifts → deqb (d k) m = false).
    { intros k Hk. destruct (deqb (d k) m) eqn:E; [|done].
      assert (FindMinDistShifts freqs !! k = Some 1) as Habs.
      { unfold FindMinDistShifts. apply Hkeys. by split_and!. }
      rewrite Hempty in Habs. by rewrite lookup_empty in Habs. }
    assert (Ht' : t ∈ reverse shifts) by (by apply elem_of_reverse, elem_of_shifts).
    destruct Hatt as [E|(j & Hj & E)].
    + apply dleb_spec in Hle as [Hlt|Heq].
      * rewrite <- E, (Hlow t Ht') in Hlt. done.
      * rewrite <- E, (Hnone t Ht') in Heq. done.
    + pose proof (dleb_not_nan_l _ _ Hmax) as Hnan.
      rewrite E in Hnan at 1. by rewrite (Hnone j Hj) in Hnan.
  - intros Hnone. apply map_eq. intros k. rewrite lookup_empty.
    destruct (FindMinDistShifts freqs !! k) as [v|] eqn:E; [|done].
    apply (FindMinDistShifts_spec freqs d d_dist) in E as (Hk & _ & Hle & _).
    by rewrite (Hnone k Hk) in Hle.
Qed.
End MinScanResult.

(** X13.  For any array, the keys of the map of [FindMinDistShifts] are the
    candidates whose distance is a number at most [DBL_MAX] that no
    candidate undercuts (ties are all kept), every score is 1, and the map
    is empty exactly when no distance is a number at most [DBL_MAX]. *)
Theorem FindMinDistShifts_result (freqs : CharFrequencyArray) :
  (∀ k, k ∈ dom (FindMinDistShifts freqs) ↔
     0 ≤ k < 128
     ∧ dleb (dist freqs k) DBL_MAX = true
     ∧ ∀ t, 0 ≤ t < 128 → dltb (dist freqs t) (dist freqs k) = false)
  ∧ (∀ k v, FindMinDistShifts freqs !! k = Some v → v = 1)
  ∧ (FindMinDistShifts freqs = ∅ ↔
     ∀ t, 0 ≤ t < 128 → dleb (dist freqs t) DBL_MAX = false).
Proof.
  split; [|split].
  - exact (FindMinDistShifts_dom freqs (dist freqs) (λ _, eq_refl)).
  - intros k v Hv. apply FindMinDistShifts_keys in Hv. tauto.
  - exact (FindMinDistShifts_empty freqs (dist freqs) (λ _, eq_refl)).
Qed.

(** ** The frequency attack ignores the order of the bytes *)

Lemma foldl_permutation {A B : Type} (f : A → B → A) (l1 l2 : list B) :
  (∀ a x y, f (f a x) y = f (f a y) x) →
  l1 ≡ₚ l2 → ∀ a, foldl f a l1 = foldl f a l2.
Proof.
  intros Hcomm. induction 1 as [|x l1 l2 _ IH|x y l|l1 l2 l3 _ IH1 _ IH2];
    intros a; cbn [foldl].
  - done.
  - apply IH.
  - by rewrite Hcomm.
  - by rewrite IH1.
Qed.

Lemma hist_step_comm (s : Z) (h : CharFrequencies) (c1 c2 : ascii) :
  hist_step s (hist_step s h c1) c2 = hist_step s (hist_step s h c2) c1.
Proof.
  unfold hist_step.
  set (i := Z.to_nat ((char_to_int c1 + s) mod 128)).
  set (j := Z.to_nat ((char_to_int c2 + s) mod 128)).
  destruct (decide (i = j)) as [->|Hne]; [done|].
  by apply list_alter_alter_ne.
Qed.

Lemma hist_from_permutation (init : CharFrequencies) (s : Z) (l1 l2 : list ascii) :
  l1 ≡ₚ l2 → hist_from init s l1 = hist_from init s l2.
Proof.
  intros Hp. unfold hist_from.
  apply foldl_permutation; [apply hist_step_comm|done].
Qed.

Lemma byte_count_permutation (l1 l2 : list ascii) :
  l1 ≡ₚ l2 → byte_count l1 = byte_count l2.
Proof. intros Hp. unfold byte_count. by apply foldl_permutation. Qed.

(** [FindMinDistShifts] reads the rows of the candidates only. *)
Lemma min_fold_rows (freqs1 freqs2 : CharFrequencyArray) (l : list Z) :
  (∀ t, t ∈ l → row freqs1 t = row freqs2 t) →
  ∀ st, foldl (min_body freqs1) st l = foldl (min_body freqs2) st l.
Proof.
  induction l as [|s l IH]; intros Hrows st; [done|]. cbn [foldl].
  rewrite IH by (intros; apply Hrows; by right).
  f_equal. unfold min_body. rewrite (Hrows s) by left. done.
Qed.

Lemma FindMinDistShifts_rows (freqs1 freqs2 : CharFrequencyArray) :
  (∀ t, 0 ≤ t < 128 → row freqs1 t = row freqs2 t) →
  FindMinDistShifts freqs1 = FindMinDistShifts freqs2.
Proof.
  intros Hrows. unfold FindMinDistShifts. f_equal.
  apply min_fold_rows. intros t Ht. by apply Hrows, elem_of_shifts.
Qed.

(** X14.  The frequency attack does not depend on the order of the bytes of
    the ciphertext: two ASCII streams whose bytes are arrangements of each
    other give the same map, whatever the storage of [freqs] holds. *)
Theorem frequency_attack_order_independent (uninit : Z → Z → double)
    (ins1 ins2 : istream) :
  Forall (λ c, is_ascii c = true) (bytes_read ins1) →
  bytes_read ins1 ≡ₚ bytes_read ins2 →
  AsciiFrequencyAnalysisAttack uninit ins1
  = AsciiFrequencyAnalysisAttack uninit ins2.
Proof.
  intros Hall1 Hp.
  assert (Hall2 : Forall (λ c, is_ascii c = true) (bytes_read ins2))
    by (by rewrite <- Hp).
  destruct (freq_table_rows uninit ins1 Hall1) as (freqs1 & E1 & H1).
  destruct (freq_table_rows uninit ins2 Hall2) as (freqs2 & E2 & H2).
  unfold AsciiFrequencyAnalysisAttack. rewrite E1, E2. f_equal.
  apply FindMinDistShifts_rows. intros t Ht.
  rewrite (H1 t Ht), (H2 t Ht).
  by rewrite (hist_from_permutation _ t _ _ Hp), (byte_count_permutation _ _ Hp).
Qed.

Lemma frequency_attack_order_independent_witness :
  AsciiFrequencyAnalysisAttack stale (stream_of (string_bytes "dawn"))
  = AsciiFrequencyAnalysisAttack stale (stream_of (string_bytes "wand")).
Proof.
  apply (frequency_attack_order_independent stale
           (stream_of (string_bytes "dawn")) (stream_of (string_bytes "wand")));
    [repeat constructor|].
  change (bytes_read (stream_of (string_bytes "dawn")))
    with ["d"; "a"; "w"; "n"]%char.
  change (bytes_read (stream_of (string_bytes "wand")))
    with ["w"; "a"; "n"; "d"]%char.
  apply (Permutation_cons_app ["w"; "a"; "n"]%char []).
  apply (Permutation_cons_app ["w"]%char ["n"]%char). reflexivity.
Defined.

(** * ccracker: choosing the keys to report *)

(** The loop of [FindKeys] once the entries [seen] are done: [max_score]
    is 0 or the score of an entry seen, no entry seen has a higher score,
    and [keys] lists, without repetition, the keys of the entries seen whose
    score is [max_score]. *)
Lemma find_keys_step (seen : list (Z * Z)) (st : Z * list Z) (shift score : Z) :
  (∀ v, (shift, v) ∉ seen) →
  0 ≤ fst st
  ∧ (fst st = 0 ∨ ∃ k, (k, fst st) ∈ seen)
  ∧ (∀ k v, (k, v) ∈ seen → v ≤ fst st)
  ∧ (∀ k, k ∈ snd st ↔ (k, fst st) ∈ seen)
  ∧ NoDup (snd st) →
  let st' := find_keys_body st (shift, score) in
  let seen' := seen ++ [(shift, score)] in
  0 ≤ fst st'
  ∧ (fst st' = 0 ∨ ∃ k, (k, fst st') ∈ seen')
  ∧ (∀ k v, (k, v) ∈ seen' → v ≤ fst st')
  ∧ (∀ k, k ∈ snd st' ↔ (k, fst st') ∈ seen')
  ∧ NoDup (snd st').
Proof.
  destruct st as [max_score keys]. cbn [fst snd].
  intros Hfresh (H0 & Hatt & Hmax & Hkeys & Hnd).
  assert (Hin : ∀ k v, (k, v) ∈ seen ++ [(shift, score)] ↔
                       (k, v) ∈ seen ∨ (k = shift ∧ v = score)).
  { intros k v. rewrite elem_of_app, list_elem_of_singleton.
    split; (intros [?|H]; [by left|right]); [by injection H|by destruct H as [-> ->]]. }
  unfold find_keys_body. cbn [fst snd].
  destruct (Z.gtb_spec score max_score) as [Hgt|Hle]; cbn [fst snd].
  - (* a higher score: the keys are reset *)
    split; [lia|]. split; [right; exists shift; apply Hin; by right|].
    split; [intros k v [H|[-> ->]]%Hin; [apply Hmax in H|]; lia|].
    split; [|apply NoDup_singleton].
    intros k. rewrite list_elem_of_singleton, Hin. split; [intros ->; by right|].
    intros [H|[-> _]]; [|done]. apply Hmax in H. lia.
  - destruct (Z.eqb_spec score max_score) as [->|Hne]; cbn [fst snd].
    + (* the same score: one more key *)
      split; [done|]. split; [right; exists shift; apply Hin; by right|].
      split; [intros k v [H|[-> ->]]%Hin; [by apply Hmax in H|lia]|].
      split.
      * intros k. rewrite elem_of_app, list_elem_of_singleton, Hin, Hkeys.
        split; (intros [?|H]; [by left|right]); [done|by destruct H].
      * apply NoDup_app. split; [done|]. split; [|apply NoDup_singleton].
        intros k Hk ->%list_elem_of_singleton. by apply Hkeys, Hfresh in Hk.
    + (* a lower score: nothing changes *)
      split; [done|].
      split; [destruct Hatt as [->|[k Hk]]; [by left|right; exists k; apply Hin; by left]|].
      split; [intros k v [H|[-> ->]]%Hin; [by apply Hmax in H|lia]|].
      split; [|done].
      intros k. rewrite Hin, Hkeys. split; [by left|].
      intros [?|[_ H]]; [done|]. lia.
Qed.

Lemma find_keys_fold (todo : list (Z * Z)) :
  ∀ seen st,
    NoDup ((seen ++ todo).*1) →
    0 ≤ fst st
    ∧ (fst st = 0 ∨ ∃ k, (k, fst st) ∈ seen)
    ∧ (∀ k v, (k, v) ∈ seen → v ≤ fst st)
    ∧ (∀ k, k ∈ snd st ↔ (k, fst st) ∈ seen)
    ∧ NoDup (snd st) →
    let st' := foldl find_keys_body st todo in
    0 ≤ fst st'
    ∧ (fst st' = 0 ∨ ∃ k, (k, fst st') ∈ seen ++ todo)
    ∧ (∀ k v, (k, v) ∈ seen ++ todo → v ≤ fst st')
    ∧ (∀ k, k ∈ snd st' ↔ (k, fst st') ∈ seen ++ todo)
    ∧ NoDup (snd st').
Proof.
  induction todo as [|[shift score] todo IH]; intros seen st Hnd Hinv.
  - by rewrite app_nil_r.
  - cbn [foldl].
    replace (seen ++ (shift, score) :: todo)
      with ((seen ++ [(shift, score)]) ++ todo) in * by (by rewrite <- app_assoc).
    apply IH; [done|]. apply find_keys_step; [|done].
    intros v Hin. rewrite !fmap_app in Hnd. apply NoDup_app in Hnd as [Hnd _].
    apply NoDup_app in Hnd as (_ & Hdis & _).
    apply (Hdis shift); [|cbn; left].
    apply list_elem_of_fmap. by exists (shift, v).
Qed.

Lemma elem_of_iteration (scores : KeyScoreMap) (entries : list (Z * Z)) (k v : Z) :
  iteration_of scores entries → (k, v) ∈ entries ↔ scores !! k = Some v.
Proof. intros Hit. unfold iteration_of in Hit. by rewrite Hit, elem_of_map_to_list. Qed.

Lemma NoDup_iteration (scores : KeyScoreMap) (entries : list (Z * Z)) :
  iteration_of scores entries → NoDup (entries.*1).
Proof.
  intros Hit. unfold iteration_of in Hit. rewrite Hit.
  apply NoDup_fst_map_to_list.
Qed.

(** The final state of the loop of [FindKeys]. *)
Lemma FindKeys_state (entries : list (Z * Z)) :
  NoDup (entries.*1) →
  ∃ max_score,
    0 ≤ max_score
    ∧ (max_score = 0 ∨ ∃ k, (k, max_score) ∈ entries)
    ∧ (∀ k v, (k, v) ∈ entries → v ≤ max_score)
    ∧ (∀ k, k ∈ FindKeys entries ↔ (k, max_score) ∈ entries)
    ∧ NoDup (FindKeys entries).
Proof.
  intros Hnd. exists (fst (foldl find_keys_body (0, []) entries)).
  apply (find_keys_fold entries [] (0, [])); [done|]. cbn [fst snd].
  split; [done|]. split; [by left|].
  split; [by intros ? ? ?%not_elem_of_nil|].
  split; [|constructor]. intros k. split; by intros ?%not_elem_of_nil.
Qed.

Lemma FindKeys_members (scores : KeyScoreMap) (entries : list (Z * Z)) :
  iteration_of scores entries →
  NoDup (FindKeys entries)
  ∧ ∀ k, k ∈ FindKeys entries ↔
      ∃ v, scores !! k = Some v ∧ 0 ≤ v
           ∧ ∀ k' v', scores !! k' = Some v' → v' ≤ v.
Proof.
  intros Hit.
  destruct (FindKeys_state entries (NoDup_iteration scores entries Hit))
    as (M & H0 & Hatt & Hmax & Hkeys & Hnd).
  split; [done|]. intros k.
  rewrite Hkeys, (elem_of_iteration scores entries k M Hit). split.
  - intros Hk. exists M. split; [done|]. split; [done|].
    intros k' v' Hk'. apply (Hmax k'). by apply (elem_of_iteration scores entries).
  - intros (v & Hk & Hv & Hbest).
    assert (v = M) as ->; [|done].
    apply Z.le_antisymm.
    + apply (Hmax k). by apply (elem_of_iteration scores entries).
    + destruct Hatt as [->|[k' Hk']]; [done|].
      apply (Hbest k'). by apply (elem_of_iteration scores entries).
Qed.

(** X16.  Whatever the order in which the score map is iterated, [FindKeys]
    returns, without repetition, exactly the keys whose score is not
    negative and is the highest of the map; two iteration orders give the
    same keys up to their order. *)
Theorem FindKeys_of_map (scores : KeyScoreMap) (entries entries' : list (Z * Z)) :
  iteration_of scores entries → iteration_of scores entries' →
  NoDup (FindKeys entries)
  ∧ (∀ k, k ∈ FindKeys entries ↔
       ∃ v, scores !! k = Some v ∧ 0 ≤ v
            ∧ ∀ k' v', scores !! k' = Some v' → v' ≤ v)
  ∧ FindKeys entries ≡ₚ FindKeys entries'.
Proof.
  intros Hit Hit'. destruct (FindKeys_members scores entries Hit) as [Hnd Hk].
  destruct (FindKeys_members scores entries' Hit') as [Hnd' Hk'].
  split; [done|]. split; [done|].
  apply NoDup_Permutation; [done..|]. intros k. by rewrite Hk, Hk'.
Qed.

Lemma FindKeys_of_map_witness :
  FindKeys [(101, 3); (5, 3); (7, 1)] ≡ₚ FindKeys [(7, 1); (5, 3); (101, 3)].
Proof.
  apply (FindKeys_of_map {[ 101 := 3; 5 := 3; 7 := 1 ]}
           [(101, 3); (5, 3); (7, 1)] [(7, 1); (5, 3); (101, 3)]).
  - unfold iteration_of. apply NoDup_Permutation;
      [repeat constructor; set_solver|apply NoDup_map_to_list|].
    intros [k v]. vm_compute map_to_list. set_solver.
  - unfold iteration_of. apply NoDup_Permutation;
      [repeat constructor; set_solver|apply NoDup_map_to_list|].
    intros [k v]. vm_compute map_to_list. set_solver.
Defined.

(** [FindKeys] finds no key exactly when no score is positive or zero;
    for a map without scores below 1, when the map is empty. *)
Lemma FindKeys_nil (scores : KeyScoreMap) (entries : list (Z * Z)) :
  iteration_of scores entries →
  (∀ k v, scores !! k = Some v → 1 ≤ v) →
  FindKeys entries = [] ↔ scores = ∅.
Proof.
  intros Hit Hpos.
  destruct (FindKeys_state entries (NoDup_iteration scores entries Hit))
    as (M & H0 & Hatt & Hmax & Hkeys & Hnd).
  split.
  - intros Hnil. apply map_empty. intros k.
    destruct (scores !! k) as [v|] eqn:E; [|done]. exfalso.
    pose proof (Hpos k v E) as Hv.
    apply (elem_of_iteration scores entries k v Hit) in E.
    pose proof (Hmax k v E) as Hle.
    destruct Hatt as [->|[k' Hk']]; [lia|].
    apply Hkeys in Hk'. rewrite Hnil in Hk'. by apply not_elem_of_nil in Hk'.
  - intros ->. unfold iteration_of in Hit. rewrite map_to_list_empty in Hit.
    by apply Permutation_nil_r in Hit as ->.
Qed.

(** X17.  [PrintProbableKeys] writes "no viable key found" exactly when the
    score map is empty, for a map without scores below 1 (as the attacks
    return) and whatever the iteration order; otherwise it writes a line
    that starts with "most probable key(s): ". *)
Theorem PrintProbableKeys_no_key (scores : KeyScoreMap) (entries : list (Z * Z)) :
  iteration_of scores entries →
  (∀ k v, scores !! k = Some v → 1 ≤ v) →
  (PrintProbableKeys entries
     = "no viable key found" +:+ String "010" EmptyString ↔ scores = ∅)
  ∧ (scores ≠ ∅ →
     ∃ rest, PrintProbableKeys entries = "most probable key(s): " +:+ rest).
Proof.
  intros Hit Hpos. rewrite <- (FindKeys_nil scores entries Hit Hpos).
  unfold PrintProbableKeys. destruct (FindKeys entries) as [|key keys].
  - split; [done|]. by intros [].
  - split; [|eauto]. split; discriminate.
Qed.

Lemma PrintProbableKeys_no_key_witness :
  PrintProbableKeys [] = "no viable key found" +:+ String "010" EmptyString.
Proof.
  apply (proj1 (PrintProbableKeys_no_key ∅ []
                  ltac:(unfold iteration_of; by rewrite map_to_list_empty)
                  ltac:(intros k v; by rewrite lookup_empty))).
  reflexivity.
Defined.



(** * Further properties of the attacks *)



(** X15.  The frequency attack when the storage of [freqs] holds zeros.  On
    an ASCII stream the attack returns a map whose keys are exactly the
    candidates whose histogram distance (histogram from zero, divided by
    the byte count, Manhattan distance to the reference table) is a number
    at most [DBL_MAX] that no candidate undercuts, each with score 1. *)
Theorem frequency_attack_on_zeroed_storage (ins : istream) :
  Forall (λ c, is_ascii c = true) (bytes_read ins) →
  ∃ m, AsciiFrequencyAnalysisAttack zeroed ins = Some m
    ∧ (∀ k v, m !! k = Some v → v = 1)
    ∧ ∀ k, k ∈ dom m ↔
        0 ≤ k < 128
        ∧ dleb (spec_distance k (bytes_read ins)) DBL_MAX = true
        ∧ ∀ t, 0 ≤ t < 128 →
            dltb (spec_distance t (bytes_read ins))
                 (spec_distance k (bytes_read ins)) = false.
Proof.
  intros Hall. destruct (AsciiFrequencyAnalysisAttack_zeroed ins Hall) as (m & E & H).
  exists m. split; [done|]. split.
  - intros k v Hv. by apply H in Hv as (_ & -> & _).
  - intros k. rewrite elem_of_dom. split.
    + intros [v Hv]. apply H in Hv. tauto.
    + intros (Hk & Hle & Hmin). exists 1. apply H. tauto.
Qed.

Lemma frequency_attack_on_zeroed_storage_witness :
  ∃ m, AsciiFrequencyAnalysisAttack zeroed (stream_of (string_bytes "at dawn"))
       = Some m
    ∧ (∀ k v, m !! k = Some v → v = 1).
Proof.
  destruct (frequency_attack_on_zeroed_storage (stream_of (string_bytes "at dawn"))
              ltac:(repeat constructor)) as (m & E & Hone & _).
  exists m. by split.
Defined.

(** X5.  The cipher is not one-to-one on bytes outside ASCII.  Under every
    key [k] in [1, 127] the ASCII byte [128 - k] and the byte [256 - k] are
    both written as the byte 0. *)
Theorem cipher_collides_outside_ascii (k : Z) :
  1 ≤ k ≤ 127 →
  let a := ascii_of_N (Z.to_N (128 - k)) in
  let b := ascii_of_N (Z.to_N (256 - k)) in
  a ≠ b ∧ is_ascii a = true ∧ is_ascii b = false
  ∧ encrypt k [a] = ["000"%char] ∧ encrypt k [b] = ["000"%char].
Proof.
  intros Hk a b.
  assert (Ha : N_of_ascii a = Z.to_N (128 - k)) by (apply N_ascii_embedding; lia).
  assert (Hb : N_of_ascii b = Z.to_N (256 - k)) by (apply N_ascii_embedding; lia).
  assert (Eca : char_to_int a = 128 - k).
  { unfold char_to_int. rewrite Ha, Z2N.id by lia.
    by rewrite (proj2 (Z.ltb_lt _ _)) by lia. }
  assert (Ecb : char_to_int b = - k).
  { unfold char_to_int. rewrite Hb, Z2N.id by lia.
    rewrite (proj2 (Z.ltb_ge _ _)) by lia. lia. }
  split_and!.
  - intros Heq. rewrite Heq, Hb in Ha. lia.
  - unfold is_ascii. rewrite Ha, Z2N.id by lia. apply Z.ltb_lt. lia.
  - unfold is_ascii. rewrite Hb, Z2N.id by lia. apply Z.ltb_ge. lia.
  - rewrite encrypt_fmap. cbn [fmap list_fmap]. unfold shift_char.
    rewrite Eca, int_add_small by (unfold INT_MAX; lia).
    replace (128 - k + k) with 128 by lia. reflexivity.
  - rewrite encrypt_fmap. cbn [fmap list_fmap]. unfold shift_char.
    rewrite Ecb, int_add_small by (unfold INT_MAX; lia).
    replace (- k + k) with 0 by lia. reflexivity.
Qed.

Lemma cipher_collides_outside_ascii_witness :
  encrypt 27 ["e"%char] = ["000"%char]
  ∧ encrypt 27 [ascii_of_N 229] = ["000"%char].
Proof.
  destruct (cipher_collides_outside_ascii 27 ltac:(lia)) as (_ & _ & _ & Ha & Hb).
  split; [exact Ha|exact Hb].
Defined.
